(** * zeroe: simple text attacks (src/zeroe/attacks/simple_attacks.py)

    A shallow embedding of the perturbation engine: the word transforms
    ([swap], [intruders], [disemvoweling], [truncating], [key], [natural]),
    the segmenter ([segmentation]) and the facade with its budgeted selection
    loop ([simple_perturb]).

    Conventions of the embedding.
    - Python [str] values are [string]s; [list(word)] is the list of its
      characters.  Characters are Rocq [ascii] characters, and [upper] /
      [lower] act on the letters a..z / A..Z as Python does on ASCII text.
    - The perturbation level is a rational number ([Q]), as every float is,
      and the comparisons the code makes with it are the exact ones.  The
      one product of the code, [len(words) * perturbation_level], is a
      floating-point product: [perturb_target] is its exact value, which the
      float has at level 0, at level 1 (for fewer than 2^53 tokens) and
      wherever the exact product is a float, and which it can miss in the
      last place elsewhere.  What is
      proved about the budget is therefore proved for every value of the
      target.
    - Every function that draws random numbers threads a random source
      ([rng]): an arbitrary tape of naturals read left to right.  Each
      primitive of [random] / [numpy.random] decodes the draws into its own
      range, so quantifying over tapes quantifies over all outcomes.  The
      two generators of the code are read off the one tape, in the order of
      the calls.
    - Exceptions and non-termination are outcomes ([Raise], [Diverge]) of a
      small state-and-error monad [M]; loops that the code does not bound
      take a fuel argument and [Diverge] when it runs out. *)

From Stdlib Require Import Ascii QArith Qround.
From stdpp Require Import gmap strings list.

(** ** Outcomes, random source and the monad *)

Inductive exn : Type :=
| ValueError (args : list string)
| KeyError (k : string)
| IndexError.

Inductive outcome (A : Type) : Type :=
| Ret (a : A)
| Raise (e : exn)
| Diverge.
Arguments Ret {A} a.
Arguments Raise {A} e.
Arguments Diverge {A}.

Record rng : Type := Rng { tape : nat → nat; cursor : nat }.

Definition M (A : Type) : Type := rng → outcome (A * rng).

#[global] Instance M_ret : MRet M := λ A a g, Ret (a, g).
#[global] Instance M_bind : MBind M := λ A B k m g,
  match m g with
  | Ret (a, g') => k a g'
  | Raise e => Raise e
  | Diverge => Diverge
  end.

Definition raise {A : Type} (e : exn) : M A := λ _, Raise e.
Definition diverge {A : Type} : M A := λ _, Diverge.

Module Rand.

(** One raw draw: read the tape at the cursor and advance. *)
Definition next : M nat :=
  λ g, Ret (tape g (cursor g), Rng (tape g) (S (cursor g))).

(** A float of the half-open interval [0, 1): two draws [a], [b] give
    a / (a + b + 1); every rational of the interval is reached. *)
Definition unit_interval : M Q :=
  a ← next; b ← next;
  mret (Z.of_nat a # Pos.of_succ_nat (a + b)).

(** [random.random()] *)
Definition random : M Q := unit_interval.

(** [numpy.random.uniform(0, 1)] *)
Definition uniform01 : M Q := unit_interval.

(** [random.randint(lo, hi)], both ends included; an empty range is a
    [ValueError]. *)
Definition randint (lo hi : Z) : M Z :=
  if (hi <? lo)%Z then raise (ValueError ["empty range for randrange()"])
  else d ← next; mret (lo + Z.of_nat d `mod` (hi - lo + 1))%Z.

(** [random.choice(seq)] and [numpy.random.choice(seq)]: an element of a
    non-empty sequence. *)
Definition choice {A : Type} (s : list A) : M A :=
  d ← next;
  match s !! (d `mod` length s) with
  | Some x => mret x
  | None => raise (ValueError ["cannot choose from an empty sequence"])
  end.

(** [x[i], x[j] = x[j], x[i]] *)
Definition exchange {A : Type} (i j : nat) (x : list A) : list A :=
  match x !! i, x !! j with
  | Some xi, Some xj => <[i := xj]> (<[j := xi]> x)
  | _, _ => x
  end.

(** [numpy.random.shuffle(x)]: the Fisher-Yates walk
    [for i in reversed(range(1, n)): j = random_interval(i); swap x[i], x[j]]. *)
Fixpoint shuffle_from {A : Type} (i : nat) (x : list A) : M (list A) :=
  match i with
  | O => mret x
  | S i' => d ← next; shuffle_from i' (exchange i (d `mod` S i) x)
  end.

Definition shuffle {A : Type} (x : list A) : M (list A) :=
  shuffle_from (length x - 1) x.

End Rand.

(** ** Python strings *)

Definition Qltb (x y : Q) : bool := negb (Qle_bool y x).

Module PyStr.

(** [list(word)] and [''.join(chars)] *)
Definition chars_of (s : string) : list ascii := String.list_ascii_of_string s.
Definition join_chars (cs : list ascii) : string := String.string_of_list_ascii cs.

(** [''.join(parts)] for a list of strings *)
Definition join (parts : list string) : string := foldr String.append "" parts.

(** [list(word)] when the items are used as strings (as [key] does). *)
Definition singletons (s : string) : list string :=
  (λ c, String c "") <$> chars_of s.

Definition is_ascii_upper (c : ascii) : bool :=
  let n := N_of_ascii c in ((65 <=? n) && (n <=? 90))%N.
Definition is_ascii_lower (c : ascii) : bool :=
  let n := N_of_ascii c in ((97 <=? n) && (n <=? 122))%N.

Definition upper_char (c : ascii) : ascii :=
  if is_ascii_lower c then ascii_of_N (N_of_ascii c - 32) else c.
Definition lower_char (c : ascii) : ascii :=
  if is_ascii_upper c then ascii_of_N (N_of_ascii c + 32) else c.

(** [s.upper()], [s.lower()] *)
Definition upper (s : string) : string := join_chars (upper_char <$> chars_of s).
Definition lower (s : string) : string := join_chars (lower_char <$> chars_of s).

(** [s.isupper()]: some cased character, and no lowercase one. *)
Definition isupper (s : string) : bool :=
  existsb is_ascii_upper (chars_of s) && forallb (λ c, negb (is_ascii_lower c)) (chars_of s).

(** [sub in s] for two strings: substring test. *)
Fixpoint contains (s sub : string) : bool :=
  String.prefix sub s ||
  match s with
  | EmptyString => false
  | String _ s' => contains s' sub
  end.

(** [string.punctuation]; the second character is the double quote. *)
Definition punctuation : string :=
  String "!" (String (ascii_of_N 34) "#$%&'()*+,-./:;<=>?@[\]^_`{|}~").

(** [re.sub('[' + cls + ']', '', s, flags=re.IGNORECASE)] for a class of
    plain letters: a character matches when it equals a class member up to
    case. *)
Definition class_matches_ignorecase (cls : string) (c : ascii) : bool :=
  existsb (λ v, Ascii.eqb (lower_char v) (lower_char c)) (chars_of cls).
Definition re_sub_class_ignorecase (cls s : string) : string :=
  join_chars (filter (λ c, class_matches_ignorecase cls c = false) (chars_of s)).

End PyStr.

(** [list.remove(x)]: drops the first item equal to [x]; [None] stands for
    the [ValueError] of an absent item. *)
Fixpoint list_remove (x : nat) (l : list nat) : option (list nat) :=
  match l with
  | [] => None
  | y :: l' => if decide (x = y) then Some l' else (y ::.) <$> list_remove x l'
  end.

(** ** Attack kinds *)

Inductive SimpleAttack : Type :=
| SWAP_FULL | SWAP_INNER | INTRUDE | DISEMVOWEL
| TRUNCATE | TYPO_KEYBOARD | TYPO_NATURAL | SEGMENT.

(** The [method] argument of [simple_perturb]: [Union[str, SimpleAttack]]. *)
Inductive method_arg : Type :=
| MethodStr (as_string : string)
| MethodEnum (attack : SimpleAttack).

Definition UnknownAttack (as_string : string) : exn :=
  ValueError ["Unknown attack method:"; as_string].
Definition InvalidLevel : exn :=
  ValueError ["Invalid value for perturbation level."].
Definition UnknownOperation : exn :=
  ValueError ["Unknown operation SimpleAttack.SEGMENT"].

Definition fromString (as_string : string) : M SimpleAttack :=
  if decide (as_string = "full-swap") then mret SWAP_FULL
  else if decide (as_string = "inner-swap") then mret SWAP_INNER
  else if decide (as_string = "intrude") then mret INTRUDE
  else if decide (as_string = "disemvowel") then mret DISEMVOWEL
  else if decide (as_string = "truncate") then mret TRUNCATE
  else if decide (as_string = "keyboard-typo") then mret TYPO_KEYBOARD
  else if decide (as_string = "natural-typo") then mret TYPO_NATURAL
  else if decide (as_string = "segment") then mret SEGMENT
  else raise (UnknownAttack as_string).

(** ** Word transforms *)

(** *** swap (the callers leave [seed] at [None]) *)

Definition shuffle_string (_word : string) : M string :=
  chars ← Rand.shuffle (PyStr.chars_of _word);
  mret (PyStr.join_chars chars).

(** [word[0]], [word[1:-1]], [word[-1]] of a word of at least two characters. *)
Definition first_mid_last (word : string) : option (ascii * string * ascii) :=
  match PyStr.chars_of word with
  | first :: rest =>
      match last rest with
      | Some l => Some (first, PyStr.join_chars (take (length rest - 1) rest), l)
      | None => None
      end
  | [] => None
  end.

(** The [while perturbed == word] loop; [fuel] bounds the number of shuffles
    and [swap] hands it the ten that the [tries] counter allows. *)
Fixpoint swap_loop (fuel : nat) (word : string) (inner : bool)
    (perturbed : string) (tries : nat) : M string :=
  if decide (perturbed = word) then
    let tries := S tries in
    if 10 <? tries then mret perturbed
    else
      match fuel with
      | O => diverge
      | S fuel' =>
          perturbed' ←
            (if inner then
               match first_mid_last word with
               | Some (first, mid, l) =>
                   mid' ← shuffle_string mid;
                   mret (String first mid' +:+ String l "")
               | None => raise IndexError
               end
             else shuffle_string word);
          swap_loop fuel' word inner perturbed' tries
      end
  else mret perturbed.

Definition swap (word : string) (inner : bool) : M string :=
  if (String.length word <? 3) || (inner && (String.length word <? 4))
  then mret word
  else swap_loop 10 word inner word 0.

(** *** intruders (the callers leave [seed] at [None]) *)

(** [chars.insert(i, x)] *)
Definition list_insert_at {A : Type} (i : nat) (x : A) (l : list A) : list A :=
  take i l ++ x :: drop i l.

(** The inner [while i < len(chars)] scan.  Each round lowers
    [len(chars) - i] by one, and [intruders] gives the scan that many rounds
    of [fuel]. *)
Fixpoint intruders_scan (fuel : nat) (perturbation_level : Q) (punct : ascii)
    (chars : list ascii) (i : nat) : M (list ascii) :=
  if i <? length chars then
    match fuel with
    | O => diverge
    | S fuel' =>
        u ← Rand.uniform01;
        if Qltb u perturbation_level
        then intruders_scan fuel' perturbation_level punct
               (list_insert_at i punct chars) (i + 1 + 1)
        else intruders_scan fuel' perturbation_level punct chars (i + 1)
    end
  else mret chars.

(** The outer [while perturbed == word] loop: nothing in the code bounds it,
    so its rounds are counted by the caller's [fuel]. *)
Fixpoint intruders_loop (fuel : nat) (word : string) (perturbation_level : Q)
    (punct : ascii) (chars : list ascii) (perturbed : string) : M string :=
  if decide (perturbed = word) then
    match fuel with
    | O => diverge
    | S fuel' =>
        chars' ← intruders_scan (length chars) perturbation_level punct chars 1;
        intruders_loop fuel' word perturbation_level punct chars'
          (PyStr.join_chars chars')
    end
  else mret perturbed.

Definition intruders (fuel : nat) (word : string) (perturbation_level : Q)
    : M string :=
  let chars := PyStr.chars_of word in
  let perturbed := word in
  punct ← Rand.choice (PyStr.chars_of PyStr.punctuation);
  if PyStr.contains PyStr.punctuation word || (String.length word <? 2)
  then mret word
  else if String.length word =? 2 then
    match chars, last chars with
    | c0 :: _, Some c1 => mret (PyStr.join_chars [c0; punct; c1])
    | _, _ => raise IndexError
    end
  else intruders_loop fuel word perturbation_level punct chars perturbed.

(** *** disemvoweling *)

Definition vocals_default : string := "AEIOU".

(** The counting loop: [if char.upper() in vocals: count_vowels += 1]. *)
Definition count_vowels (word vocals : string) : nat :=
  foldl (λ count char,
           if PyStr.contains vocals (String (PyStr.upper_char char) "")
           then count + 1 else count)
        0 (PyStr.chars_of word).

Definition disemvoweling_with (word vocals : string) : string :=
  if String.length word <? 3 then word
  else if count_vowels word vocals =? String.length word then word
  else PyStr.re_sub_class_ignorecase vocals word.

Definition disemvoweling (word : string) : string :=
  disemvoweling_with word vocals_default.

(** *** truncating *)

(** [while len(chars) > minlen and tmp_cutoff > 0], by recursion on the
    counter [tmp_cutoff] that every round decrements. *)
Fixpoint truncating_loop (chars : list ascii) (minlen tmp_cutoff : nat)
    : list ascii :=
  match tmp_cutoff with
  | O => chars
  | S tmp_cutoff' =>
      if minlen <? length chars
      then truncating_loop (take (length chars - 1) chars) minlen tmp_cutoff'
      else chars
  end.

Definition truncating_with (word : string) (minlen cutoff : nat) : string :=
  PyStr.join_chars (truncating_loop (PyStr.chars_of word) minlen cutoff).

Definition truncating (word : string) : string := truncating_with word 3 1.

(** ** The engine: table transforms, segmenter, budgeted selector, facade *)

Section Engine.

(** The tokenizer and detokenizer are external collaborators
    ([nltk.word_tokenize], [TreebankWordDetokenizer().detokenize]). *)
Variable word_tokenize : string → list string.
Variable detokenize : list string → string.

(** The two lookup tables, read at import time from [en.key] and
    [en.natural]: each line gives a key and its list of replacements. *)
Variable NN : gmap string (list string).
Variable typos : gmap string (list string).

(** *** key *)

(** The body of [key] after the probability gate. *)
Definition key_apply (word0 : string) : M string :=
  let word := PyStr.singletons word0 in
  i ← Rand.randint 0 (Z.of_nat (length word) - 1);
  match word !! Z.to_nat i with
  | None => raise IndexError
  | Some char =>
      let caps := PyStr.isupper char in
      if decide (is_Some (NN !! char)) then
        match NN !! PyStr.lower char with
        | None => raise (KeyError (PyStr.lower char))
        | Some neighbours =>
            k ← Rand.randint 0 (Z.of_nat (length neighbours) - 1);
            match neighbours !! Z.to_nat k with
            | None => raise IndexError
            | Some neighbour =>
                let word := <[Z.to_nat i := neighbour]> word in
                (* [if caps: word[i].upper()]: the value is dropped *)
                let _ := if caps then PyStr.upper neighbour else neighbour in
                mret (PyStr.join word)
            end
        end
      else mret (PyStr.join word)
  end.

Definition key (word : string) (probability : Q) : M string :=
  r ← Rand.random;
  if Qltb probability r then mret word else key_apply word.

(** *** natural *)

Definition natural_apply (word : string) : M string :=
  match typos !! word with
  | Some variants =>
      k ← Rand.randint 0 (Z.of_nat (length variants) - 1);
      match variants !! Z.to_nat k with
      | Some variant => mret variant
      | None => raise IndexError
      end
  | None => mret word
  end.

Definition natural (word : string) (precentage : Q) : M string :=
  r ← Rand.random;
  if Qltb precentage r then mret word else natural_apply word.

(** *** Segmenter *)

(** The [for word in ...] loop of [segmentation], on the token list. *)
Fixpoint segmentation_loop (probability : Q) (tokens : list string)
    (result : list string) (buffer : string) : M (list string * string) :=
  match tokens with
  | [] => mret (result, buffer)
  | word :: rest =>
      u ← Rand.uniform01;
      if Qltb u probability
      then segmentation_loop probability rest result (buffer +:+ word)
      else segmentation_loop probability rest (result ++ [buffer +:+ word]) ""
  end.

(** [segmentation] between tokenizing and detokenizing: the loop and the
    final [if buffer != "": result.append(buffer)]. *)
Definition segmentation_tokens (tokens : list string) (probability : Q)
    : M (list string) :=
  '(result, buffer) ← segmentation_loop probability tokens [] "";
  mret (if decide (buffer ≠ "") then result ++ [buffer] else result).

Definition segmentation (text : string) (probability : Q) : M string :=
  result ← segmentation_tokens (word_tokenize text) probability;
  mret (detokenize result).

(** *** Budgeted selector *)

(** The [if / elif] chain of [simple_perturb] that applies the transform of
    [method] to one word. *)
Definition apply_attack (fuel : nat) (method : SimpleAttack)
    (perturbation_level : Q) (word : string) : M string :=
  match method with
  | SWAP_FULL => swap word false
  | SWAP_INNER => swap word true
  | INTRUDE => intruders fuel word perturbation_level
  | DISEMVOWEL => mret (disemvoweling word)
  | TRUNCATE => mret (truncating word)
  | TYPO_KEYBOARD => key word 1
  | TYPO_NATURAL => natural word 1
  | SEGMENT => raise UnknownOperation
  end.

(** The variables of the selection loop; [attempted] is a ghost log of the
    successive values of [index]. *)
Record selector : Type := Selector {
  words : list string;
  word_indexes : list nat;
  perturbed_words : nat;
  attempted : list nat
}.

(** [len(words) * perturbation_level] *)
Definition perturb_target (words : list string) (perturbation_level : Q) : Q :=
  (inject_Z (Z.of_nat (length words)) * perturbation_level)%Q.

(** [perturbed_words < perturb_target] *)
Definition below_target (perturbed_words : nat) (perturb_target : Q) : bool :=
  Qltb (inject_Z (Z.of_nat perturbed_words)) perturb_target.

Definition selector_init (words : list string) : selector :=
  Selector words (seq 0 (length words)) 0 [].

(** The [while perturbed_words < perturb_target] loop for a given word
    transform; every round costs one unit of [fuel]. *)
Fixpoint selector_loop (transform : string → M string) (perturb_target : Q)
    (fuel : nat) (st : selector) : M selector :=
  if below_target (perturbed_words st) perturb_target then
    if length (word_indexes st) <? 1 then mret st
    else
      match fuel with
      | O => diverge
      | S fuel' =>
          index ← Rand.choice (word_indexes st);
          match list_remove index (word_indexes st) with
          | None => raise (ValueError ["list.remove(x): x not in list"])
          | Some word_indexes' =>
              match words st !! index with
              | None => raise IndexError
              | Some word =>
                  perturbed_word ← transform word;
                  selector_loop transform perturb_target fuel'
                    (Selector (<[index := perturbed_word]> (words st))
                              word_indexes'
                              (perturbed_words st +
                                 (if decide (perturbed_word ≠ word) then 1 else 0))
                              (attempted st ++ [index]))
              end
          end
      end
  else mret st.

(** *** Facade *)

Definition level_ok (perturbation_level : Q) : bool :=
  Qle_bool 0 perturbation_level && Qle_bool perturbation_level 1.

Definition simple_perturb (fuel : nat) (text : string) (method : method_arg)
    (perturbation_level : Q) : M string :=
  method ← (match method with
            | MethodStr as_string => fromString as_string
            | MethodEnum attack => mret attack
            end);
  if negb (level_ok perturbation_level) then raise InvalidLevel
  else
    match method with
    | SEGMENT => segmentation text perturbation_level
    | _ =>
        let tokens := word_tokenize text in
        st ← selector_loop (apply_attack fuel method perturbation_level)
               (perturb_target tokens perturbation_level) fuel
               (selector_init tokens);
        mret (detokenize (words st))
    end.

End Engine.

(** ** Specification vocabulary *)

(** [post m g P E D]: what running [m] from the random source [g] yields, by
    outcome: a value and a source satisfying [P], an exception satisfying
    [E], or, when the run does not end, [D]. *)
Definition post {A : Type} (m : M A) (g : rng)
    (P : A → rng → Prop) (E : exn → Prop) (D : Prop) : Prop :=
  match m g with
  | Ret (a, g') => P a g'
  | Raise e => E e
  | Diverge => D
  end.

(** [returns m g P]: [m] returns from [g], with a value satisfying [P]. *)
Definition returns {A : Type} (m : M A) (g : rng) (P : A → rng → Prop) : Prop :=
  post m g P (λ _, False) False.

(** [quiet m]: no run of [m] ends in the level-validation error. *)
Definition quiet {A : Type} (m : M A) : Prop :=
  ∀ g, m g ≠ Raise InvalidLevel.

(** [comes_back m]: every run of [m] ends, with a value or an exception. *)
Definition comes_back {A : Type} (m : M A) : Prop :=
  ∀ g, m g ≠ Diverge.

(** The vowels that the specification of [disemvoweling] names: A, E, I, O, U
    in either case. *)
Definition is_vowel (c : ascii) : bool :=
  bool_decide (c ∈ PyStr.chars_of "AEIOUaeiou").

Definition remove_vowels (w : string) : string :=
  PyStr.join_chars (filter (λ c, is_vowel c = false) (PyStr.chars_of w)).

Definition all_vowels (w : string) : Prop :=
  Forall (λ c, is_vowel c = true) (PyStr.chars_of w).


(** The number of positions at which two token sequences differ. *)
Definition count_changed (ws ws0 : list string) : nat :=
  length (filter (λ p, p.1 ≠ p.2) (zip ws ws0)).

(** What holds of the variables of the selection loop before and after every
    round, for the target [target] and the tokens [words0] it started from. *)
Record selector_inv (target : Q) (words0 : list string) (st : selector) : Prop := {
  inv_length : length (words st) = length words0;
  inv_pool : attempted st ++ word_indexes st ≡ₚ seq 0 (length words0);
  inv_untouched : ∀ i, i ∈ word_indexes st → words st !! i = words0 !! i;
  inv_count : perturbed_words st = count_changed (words st) words0;
  inv_bound : perturbed_words st = 0
              ∨ (inject_Z (Z.of_nat (perturbed_words st) - 1) < target)%Q
}.

(** Why the selection loop is left: the target is met, or the pool is empty. *)
Definition selector_exit (target : Q) (st : selector) : Prop :=
  below_target (perturbed_words st) target = false ∨ word_indexes st = [].

(** The method arguments that [simple_perturb] recognizes: a member of the
    enumeration, or one of the eight names. *)
Definition recognized (method : method_arg) : Prop :=
  match method with
  | MethodEnum _ => True
  | MethodStr as_string =>
      as_string ∈ ["full-swap"; "inner-swap"; "intrude"; "disemvowel";
                   "truncate"; "keyboard-typo"; "natural-typo"; "segment"]
  end.

(** Modelled from the spec: the keyboard table is read from the data file
    [en.key], which is missing; the spec describes it as a "mapping from a
    single lowercase character to an ordered list of adjacent-key
    characters": its keys are in lower case and no key is listed among its
    own neighbours. *)
Definition keyboard_table_ok (NN : gmap string (list string)) : Prop :=
  ∀ k neighbours, NN !! k = Some neighbours → PyStr.lower k = k ∧ k ∉ neighbours.

(** Modelled from the spec: the typo table is read from the data file
    [en.natural], which is missing; the spec describes it as mapping a word
    "to an ordered list of attested human misspellings of that word": no
    word is listed among its own misspellings. *)
Definition typo_table_ok (typos : gmap string (list string)) : Prop :=
  ∀ w variants, typos !! w = Some variants → w ∉ variants.

(** Small tables for concrete runs. *)
Definition keyboard_sample : gmap string (list string) :=
  {[ "a" := ["q"; "w"; "s"; "z"] ]}.
Definition keyboard_two_cases : gmap string (list string) :=
  <["A" := ["Q"]]> {[ "a" := ["q"] ]}.
Definition typos_sample : gmap string (list string) :=
  {[ "the" := ["teh"; "hte"] ]}.

(** A tokenizer and a detokenizer of the simplest kind, to run the facade on
    concrete texts: split at spaces, join with one space.  On texts made of
    letters and spaces [nltk]'s pair gives the same tokens and the same
    text. *)
Definition split_tokenize (text : string) : list string := String.words text.
Definition space_detokenize (tokens : list string) : string :=
  String.concat " " tokens.

(** A random source for concrete runs. *)
Definition tape0 : rng := Rng (λ n, 7 * n + 3) 0.

(** ** Loading the lookup tables *)

(** [c.isspace()] on ASCII text: tab to carriage return, the four separators
    28 to 31, and the space. *)
Definition isspace_char (c : ascii) : bool :=
  let n := N_of_ascii c in
  (((9 <=? n) && (n <=? 13)) || ((28 <=? n) && (n <=? 31)) || (n =? 32))%N.

(** [s.split()]: the maximal runs of characters that are not whitespace;
    [cur] holds the run being read. *)
Fixpoint split_go (cur : list ascii) (cs : list ascii) : list string :=
  match cs with
  | [] => if cur is [] then [] else [PyStr.join_chars cur]
  | c :: cs' =>
      if isspace_char c
      then (if cur is [] then split_go [] cs'
            else PyStr.join_chars cur :: split_go [] cs')
      else split_go (cur ++ [c]) cs'
  end.

Definition split (s : string) : list string := split_go [] (PyStr.chars_of s).

(** The loop [for line in handle: line = line.split(); NN[line[0]] = line[1:]]
    that fills a table from the lines of its file; [line[0]] of a line
    without tokens is an [IndexError]. *)
Fixpoint load_table_from (handle : list string)
    (table : gmap string (list string)) : exn + gmap string (list string) :=
  match handle with
  | [] => inr table
  | line :: rest =>
      match split line with
      | [] => inl IndexError
      | k :: entries => load_table_from rest (<[k := entries]> table)
      end
  end.

Definition load_table (handle : list string) : exn + gmap string (list string) :=
  load_table_from handle ∅.

(** ** Vocabulary of the further properties *)

(** [s.isascii()]: every character is below 128. *)
Definition isascii (s : string) : Prop :=
  Forall (λ c, (N_of_ascii c < 128)%N) (PyStr.chars_of s).

(** A token of [split]: not empty, and free of whitespace. *)
Definition token_ok (tok : string) : Prop :=
  tok ≠ "" ∧ Forall (λ c, isspace_char c = false) (PyStr.chars_of tok).

(** A line without a token: whitespace only. *)
Definition blank_line (line : string) : Prop :=
  Forall (λ c, isspace_char c = true) (PyStr.chars_of line).

(** The number of tokens that the segmenter has emitted or is about to. *)
Definition segments (result : list string) (buffer : string) : nat :=
  length result + (if decide (buffer ≠ "") then 1 else 0).

(** [punct] put in front of the characters that [mask] marks. *)
Fixpoint insert_gaps (mask : list bool) (punct : ascii) (cs : list ascii)
    : list ascii :=
  match mask, cs with
  | b :: mask', c :: cs' =>
      (if b then [punct; c] else [c]) ++ insert_gaps mask' punct cs'
  | _, _ => cs
  end.

(** The word transform of an attack that draws nothing, if it is one. *)
Definition pure_transform (attack : SimpleAttack) : option (string → string) :=
  match attack with
  | DISEMVOWEL => Some disemvoweling
  | TRUNCATE => Some truncating
  | _ => None
  end.

(** The length below which an attack returns every word as it is. *)
Definition untouched_below (attack : SimpleAttack) : nat :=
  match attack with
  | SWAP_FULL => 3
  | SWAP_INNER => 4
  | INTRUDE => 2
  | DISEMVOWEL => 3
  | TRUNCATE => 4
  | _ => 0
  end.

(** ** The monad and the random source *)

Section MonadFacts.
Context {A B : Type}.
Implicit Types (m : M A) (k : A → M B) (g : rng).

Lemma bind_unfold m k g :
  (m ≫= k) g = match m g with
               | Ret (a, g') => k a g'
               | Raise e => Raise e
               | Diverge => Diverge
               end.
Proof. reflexivity. Qed.

Lemma post_ret (a : A) g (P : A → rng → Prop) E D :
  P a g → post (mret a) g P E D.
Proof. intros HP. exact HP. Qed.

Lemma post_bind m k g (P : B → rng → Prop) (E : exn → Prop) (D : Prop) :
  post m g (λ a g', post (k a) g' P E D) E D → post (m ≫= k) g P E D.
Proof.
  unfold post. rewrite bind_unfold.
  destruct (m g) as [[a g']| |]; auto.
Qed.

Lemma post_mono m g (P P' : A → rng → Prop) (E E' : exn → Prop) (D D' : Prop) :
  (∀ a g', P a g' → P' a g') → (∀ e, E e → E' e) → (D → D') →
  post m g P E D → post m g P' E' D'.
Proof.
  intros HP HE HD. unfold post.
  destruct (m g) as [[a g']| |]; auto.
Qed.

Lemma returns_inv m g (P : A → rng → Prop) :
  returns m g P ↔ ∃ a g', m g = Ret (a, g') ∧ P a g'.
Proof.
  unfold returns, post. split.
  - destruct (m g) as [[a g']| |]; [eauto | tauto | tauto].
  - intros (a & g' & -> & HP). exact HP.
Qed.

Lemma returns_bind m k g (P : B → rng → Prop) :
  returns m g (λ a g', returns (k a) g' P) → returns (m ≫= k) g P.
Proof. apply post_bind. Qed.

Lemma returns_mono m g (P P' : A → rng → Prop) :
  (∀ a g', P a g' → P' a g') → returns m g P → returns m g P'.
Proof. intros HP. apply post_mono; auto. Qed.

Lemma returns_post m g (P : A → rng → Prop) E D :
  returns m g P → post m g P E D.
Proof. apply post_mono; tauto. Qed.

Lemma bind_ret_inv m k g b g2 :
  (m ≫= k) g = Ret (b, g2) → ∃ a g1, m g = Ret (a, g1) ∧ k a g1 = Ret (b, g2).
Proof.
  rewrite bind_unfold. destruct (m g) as [[a g1]| |]; [eauto | discriminate..].
Qed.

Lemma quiet_bind m k : quiet m → (∀ a, quiet (k a)) → quiet (m ≫= k).
Proof.
  intros Hm Hk g. rewrite bind_unfold.
  specialize (Hm g). destruct (m g) as [[a g']| |]; [apply Hk | | done].
  intros [= ->]. by apply Hm.
Qed.

Lemma quiet_ret (a : A) : quiet (mret a).
Proof. intros g. discriminate. Qed.

Lemma quiet_raise (e : exn) : e ≠ InvalidLevel → quiet (@raise A e).
Proof. intros He g [= Heq]. done. Qed.

Lemma quiet_diverge : quiet (@diverge A).
Proof. intros g. discriminate. Qed.

Lemma comes_back_bind m k :
  comes_back m → (∀ a, comes_back (k a)) → comes_back (m ≫= k).
Proof.
  intros Hm Hk g. rewrite bind_unfold.
  specialize (Hm g). destruct (m g) as [[a g']| |]; [apply Hk | done | done].
Qed.

Lemma comes_back_ret (a : A) : comes_back (mret a).
Proof. intros g. discriminate. Qed.

Lemma comes_back_raise (e : exn) : comes_back (@raise A e).
Proof. intros g. discriminate. Qed.

Lemma returns_comes_back m :
  (∀ g, returns m g (λ _ _, True)) → comes_back m.
Proof.
  intros Hm g Hdiv. specialize (Hm g). unfold returns, post in Hm.
  by rewrite Hdiv in Hm.
Qed.

End MonadFacts.

Lemma Qltb_lt (x y : Q) : Qltb x y = true ↔ (x < y)%Q.
Proof.
  unfold Qltb. rewrite negb_true_iff, <- not_true_iff_false, Qle_bool_iff.
  split; [apply Qnot_le_lt | apply Qlt_not_le].
Qed.

Lemma Qltb_ge (x y : Q) : Qltb x y = false ↔ (y <= x)%Q.
Proof. unfold Qltb. rewrite negb_false_iff. apply Qle_bool_iff. Qed.

Section RandFacts.

Lemma next_returns g (P : nat → rng → Prop) :
  P (tape g (cursor g)) (Rng (tape g) (S (cursor g))) → returns Rand.next g P.
Proof. intros HP. exact HP. Qed.

(** A float of [0, 1). *)
Lemma unit_interval_returns g :
  returns Rand.unit_interval g (λ u _, (0 <= u)%Q ∧ (u < 1)%Q).
Proof.
  unfold Rand.unit_interval.
  apply returns_bind, next_returns, returns_bind, next_returns.
  unfold returns, post; simpl. unfold Qle, Qlt; simpl. lia.
Qed.

(** With probability 1 the test [random() > probability] never holds, and a
    draw is never below a probability of 0. *)
Lemma unit_interval_gate g :
  returns Rand.unit_interval g (λ u _, Qltb 1 u = false ∧ Qltb u 0 = false).
Proof.
  eapply returns_mono; [| apply unit_interval_returns].
  intros u g' [H0 H1]. rewrite !Qltb_ge. auto using Qlt_le_weak.
Qed.

Lemma randint_returns lo hi g :
  (lo ≤ hi)%Z → returns (Rand.randint lo hi) g (λ z _, (lo ≤ z ≤ hi)%Z).
Proof.
  intros Hle. unfold Rand.randint.
  destruct (Z.ltb_spec hi lo) as [Hlt|_]; [lia|].
  apply returns_bind, next_returns. unfold returns, post; simpl.
  pose proof (Z.mod_pos_bound (Z.of_nat (tape g (cursor g))) (hi - lo + 1)).
  lia.
Qed.

Lemma randint_index {X : Type} (l : list X) g :
  l ≠ [] →
  returns (Rand.randint 0 (Z.of_nat (length l) - 1)) g
          (λ z _, is_Some (l !! Z.to_nat z)).
Proof.
  intros Hne. eapply returns_mono; [| apply randint_returns].
  - intros z g' Hz. simpl in Hz. apply lookup_lt_is_Some. lia.
  - destruct l; [done | simpl; lia].
Qed.

Lemma choice_returns {X : Type} (s : list X) g :
  s ≠ [] → returns (Rand.choice s) g (λ x _, x ∈ s).
Proof.
  intros Hne. unfold Rand.choice. apply returns_bind, next_returns.
  assert (Hlt : tape g (cursor g) `mod` length s < length s).
  { apply Nat.mod_upper_bound. destruct s; [done | simpl; lia]. }
  apply lookup_lt_is_Some in Hlt as [x Hx]. rewrite Hx.
  apply post_ret. eapply list_elem_of_lookup_2, Hx.
Qed.

End RandFacts.

(** ** Strings *)

Section StringFacts.

Lemma chars_of_join_chars cs : PyStr.chars_of (PyStr.join_chars cs) = cs.
Proof. apply String.list_ascii_of_string_of_list_ascii. Qed.

Lemma join_chars_chars_of s : PyStr.join_chars (PyStr.chars_of s) = s.
Proof. apply String.string_of_list_ascii_of_string. Qed.

Lemma chars_of_inj s1 s2 : PyStr.chars_of s1 = PyStr.chars_of s2 → s1 = s2.
Proof.
  intros Heq. rewrite <- (join_chars_chars_of s1), Heq.
  apply join_chars_chars_of.
Qed.

Lemma chars_of_append s1 s2 :
  PyStr.chars_of (s1 +:+ s2) = PyStr.chars_of s1 ++ PyStr.chars_of s2.
Proof. induction s1 as [|c s1 IH]; simpl; [done | by rewrite IH]. Qed.

Lemma length_chars_of s : length (PyStr.chars_of s) = String.length s.
Proof. induction s as [|c s IH]; simpl; [done | by rewrite IH]. Qed.

Lemma append_assoc s1 s2 s3 : (s1 +:+ s2) +:+ s3 = s1 +:+ s2 +:+ s3.
Proof. apply chars_of_inj. by rewrite !chars_of_append, app_assoc. Qed.

Lemma append_empty_r s : s +:+ "" = s.
Proof. apply chars_of_inj. by rewrite chars_of_append, app_nil_r. Qed.

Lemma join_snoc parts s : PyStr.join (parts ++ [s]) = PyStr.join parts +:+ s.
Proof.
  induction parts as [|p parts IH]; simpl.
  - apply append_empty_r.
  - by rewrite IH, append_assoc.
Qed.

End StringFacts.

(** ** Segmenter *)

Section SegmenterFacts.

(** What the scan has emitted, followed by the pending buffer, is always
    the text of the tokens consumed so far. *)
Lemma segmentation_loop_content probability tokens :
  ∀ result buffer g,
    returns (segmentation_loop probability tokens result buffer) g
      (λ rb _, PyStr.join rb.1 +:+ rb.2
               = (PyStr.join result +:+ buffer) +:+ PyStr.join tokens).
Proof.
  induction tokens as [|word rest IH]; intros result buffer g; simpl.
  - apply post_ret. simpl. by rewrite append_empty_r.
  - apply returns_bind.
    eapply returns_mono; [| apply unit_interval_returns].
    intros u g' _. simpl. destruct (Qltb u probability).
    + eapply returns_mono; [| apply IH].
      intros [r b] ? ->. by rewrite <- !append_assoc.
    + eapply returns_mono; [| apply IH].
      intros [r b] ? ->. by rewrite join_snoc, append_empty_r, <- !append_assoc.
Qed.

End SegmenterFacts.

(** C3. For every token sequence, every merge probability and every outcome
    of the random merge decisions, the segmenter returns, and the
    concatenation of its output tokens is the concatenation of its input
    tokens; [segmentation] hands exactly these tokens to the detokenizer. *)
Theorem segmentation_preserves_characters
    (word_tokenize : string → list string) (detokenize : list string → string)
    (tokens : list string) (text : string) (probability : Q) (g : rng) :
  (∃ out g', segmentation_tokens tokens probability g = Ret (out, g')
             ∧ PyStr.join out = PyStr.join tokens)
  ∧ (∃ out g', segmentation word_tokenize detokenize text probability g
               = Ret (detokenize out, g')
             ∧ PyStr.join out = PyStr.join (word_tokenize text)).
Proof.
  assert (Htok : ∀ toks, ∃ out g',
            segmentation_tokens toks probability g = Ret (out, g')
            ∧ PyStr.join out = PyStr.join toks).
  { intros toks. apply returns_inv. unfold segmentation_tokens.
    apply returns_bind.
    eapply returns_mono; [| apply segmentation_loop_content].
    intros [result buffer] g' Hc; simpl in Hc. apply post_ret.
    case_decide as Hb.
    - by rewrite join_snoc.
    - subst buffer. by rewrite append_empty_r in Hc. }
  split; [apply Htok|].
  destruct (Htok (word_tokenize text)) as (out & g' & Hrun & Hjoin).
  exists out, g'. split; [|done].
  unfold segmentation. rewrite bind_unfold, Hrun. reflexivity.
Qed.

(** ** Shuffling and swap *)

Section SwapFacts.

Lemma exchange_Permutation {X : Type} (i j : nat) (x : list X) :
  Rand.exchange i j x ≡ₚ x.
Proof.
  unfold Rand.exchange.
  destruct (x !! i) as [xi|] eqn:Hi; [|done].
  destruct (x !! j) as [xj|] eqn:Hj; [|done].
  pose proof (lookup_lt_Some _ _ _ Hi) as Hli.
  pose proof (lookup_lt_Some _ _ _ Hj) as Hlj.
  apply Permutation_inj. split; [by rewrite !length_insert|].
  exists (λ n, if decide (n = i) then j else if decide (n = j) then i else n).
  split.
  - intros a b. repeat case_decide; congruence.
  - intros n. rewrite !list_lookup_insert, length_insert.
    repeat case_decide; destruct_and?; subst; try done; try lia; congruence.
Qed.

Lemma shuffle_from_Permutation {X : Type} (i : nat) :
  ∀ (x : list X) g, returns (Rand.shuffle_from i x) g (λ x' _, x' ≡ₚ x).
Proof.
  induction i as [|i IH]; intros x g; simpl.
  - by apply post_ret.
  - apply returns_bind, next_returns.
    eapply returns_mono; [| apply IH].
    intros x' g' ->. apply exchange_Permutation.
Qed.

Lemma shuffle_string_Permutation (w : string) g :
  returns (shuffle_string w) g
          (λ w' _, PyStr.chars_of w' ≡ₚ PyStr.chars_of w).
Proof.
  unfold shuffle_string, Rand.shuffle. apply returns_bind.
  eapply returns_mono; [| apply shuffle_from_Permutation].
  intros cs g' Hcs. apply post_ret. by rewrite chars_of_join_chars.
Qed.

Lemma swap_loop_eq fuel word inner perturbed tries :
  swap_loop fuel word inner perturbed tries =
  if decide (perturbed = word) then
    if 10 <? S tries then mret perturbed
    else
      match fuel with
      | O => diverge
      | S fuel' =>
          perturbed' ←
            (if inner then
               match first_mid_last word with
               | Some (first, mid, l) =>
                   mid' ← shuffle_string mid;
                   mret (String first mid' +:+ String l "")
               | None => raise IndexError
               end
             else shuffle_string word);
          swap_loop fuel' word inner perturbed' (S tries)
      end
  else mret perturbed.
Proof. destruct fuel; reflexivity. Qed.

(** The retry loop of a full swap ends within the shuffles that [tries]
    still allows, on a permutation of the word. *)
Lemma swap_loop_full fuel word :
  ∀ perturbed tries g,
    10 ≤ tries + fuel →
    PyStr.chars_of perturbed ≡ₚ PyStr.chars_of word →
    returns (swap_loop fuel word false perturbed tries) g
            (λ w' _, PyStr.chars_of w' ≡ₚ PyStr.chars_of word).
Proof.
  induction fuel as [|fuel IH]; intros perturbed tries g Hfuel Hperm;
    rewrite swap_loop_eq; case_decide; try by apply post_ret.
  - destruct (Nat.ltb_spec 10 (S tries)); [by apply post_ret | lia].
  - destruct (Nat.ltb_spec 10 (S tries)); [by apply post_ret |].
    apply returns_bind.
    eapply returns_mono; [| apply shuffle_string_Permutation].
    intros w' g' Hw'. apply IH; [lia | done].
Qed.

End SwapFacts.

(** C5. A full swap ([inner = False]) of a word of at least three characters
    returns, for every outcome of the shuffles and their retries, a word with
    the same characters counted with multiplicity, hence of the same length;
    a shorter word is returned as it is, without any random draw. *)
Theorem swap_full_permutation (word : string) (g : rng) :
  (3 ≤ String.length word →
   ∃ w' g', swap word false g = Ret (w', g')
            ∧ PyStr.chars_of w' ≡ₚ PyStr.chars_of word
            ∧ String.length w' = String.length word)
  ∧ (String.length word < 3 → swap word false g = Ret (word, g)).
Proof.
  unfold swap. rewrite andb_false_l, orb_false_r.
  destruct (Nat.ltb_spec (String.length word) 3) as [Hshort|Hlong].
  - split; [lia | done].
  - split; [intros _ | lia].
    apply returns_inv.
    eapply returns_mono; [| by apply swap_loop_full].
    intros w' g' Hperm; simpl. split; [done|].
    by rewrite <- !length_chars_of, Hperm.
Qed.

Lemma swap_full_permutation_witness :
  (∃ w' g', swap "hello" false tape0 = Ret (w', g')
            ∧ PyStr.chars_of w' ≡ₚ PyStr.chars_of "hello"
            ∧ String.length w' = String.length "hello")
  ∧ swap "hi" false tape0 = Ret ("hi", tape0).
Proof.
  split.
  - apply (proj1 (swap_full_permutation "hello" tape0)). simpl. lia.
  - apply (proj2 (swap_full_permutation "hi" tape0)). simpl. lia.
Defined.

(** ** Intruders *)

Section IntrudersFacts.

Lemma intruders_scan_eq fuel level punct chars i :
  intruders_scan fuel level punct chars i =
  if i <? length chars then
    match fuel with
    | O => diverge
    | S fuel' =>
        u ← Rand.uniform01;
        if Qltb u level
        then intruders_scan fuel' level punct (list_insert_at i punct chars) (i + 1 + 1)
        else intruders_scan fuel' level punct chars (i + 1)
    end
  else mret chars.
Proof. destruct fuel; reflexivity. Qed.

Lemma length_list_insert_at {X : Type} (i : nat) (x : X) (l : list X) :
  i ≤ length l → length (list_insert_at i x l) = S (length l).
Proof.
  intros Hi. unfold list_insert_at.
  rewrite length_app, length_take; simpl. rewrite length_drop. lia.
Qed.

(** The scan always comes to an end: [len(chars) - i] rounds are enough,
    whatever is inserted on the way. *)
Lemma intruders_scan_returns fuel level punct :
  ∀ chars i g,
    length chars - i ≤ fuel →
    returns (intruders_scan fuel level punct chars i) g
            (λ chars' _, length chars ≤ length chars').
Proof.
  induction fuel as [|fuel IH]; intros chars i g Hfuel;
    rewrite intruders_scan_eq;
    destruct (Nat.ltb_spec i (length chars)) as [Hlt|Hge];
    try lia; try by apply post_ret.
  apply returns_bind.
  eapply returns_mono; [| apply unit_interval_returns].
  intros u g' _; simpl. destruct (Qltb u level).
  - eapply returns_mono; [| apply IH].
    + intros chars' ?. rewrite length_list_insert_at by lia. simpl. lia.
    + rewrite length_list_insert_at by lia. lia.
  - apply IH. lia.
Qed.

(** With an insertion probability of 0 the scan inserts nothing. *)
Lemma intruders_scan_level_0 fuel punct :
  ∀ chars i g,
    length chars - i ≤ fuel →
    returns (intruders_scan fuel 0 punct chars i) g (λ chars' _, chars' = chars).
Proof.
  induction fuel as [|fuel IH]; intros chars i g Hfuel;
    rewrite intruders_scan_eq;
    destruct (Nat.ltb_spec i (length chars)) as [Hlt|Hge];
    try lia; try by apply post_ret.
  apply returns_bind.
  eapply returns_mono; [| apply unit_interval_gate].
  intros u g' [_ Hu]; simpl. rewrite Hu. apply IH. lia.
Qed.

Lemma intruders_loop_eq fuel word level punct chars perturbed :
  intruders_loop fuel word level punct chars perturbed =
  if decide (perturbed = word) then
    match fuel with
    | O => diverge
    | S fuel' =>
        chars' ← intruders_scan (length chars) level punct chars 1;
        intruders_loop fuel' word level punct chars' (PyStr.join_chars chars')
    end
  else mret perturbed.
Proof. destruct fuel; reflexivity. Qed.

(** So the retry loop never leaves its initial state. *)
Lemma intruders_loop_level_0 word punct fuel :
  ∀ g, intruders_loop fuel word 0 punct (PyStr.chars_of word) word g = Diverge.
Proof.
  induction fuel as [|fuel IH]; intros g;
    rewrite intruders_loop_eq, decide_True by done; [done|].
  pose proof (intruders_scan_level_0 (length (PyStr.chars_of word)) punct
                (PyStr.chars_of word) 1 g) as Hscan.
  apply returns_inv in Hscan as (chars' & g' & Hrun & ->); [|lia].
  rewrite bind_unfold, Hrun, join_chars_chars_of. apply IH.
Qed.

End IntrudersFacts.

(** C9. Nothing bounds the retry loop of [intruders]: with an insertion
    probability of 0, for a word of at least three characters that is not
    found in [string.punctuation], every scan returns the characters as they
    were, and the function does not come back, whatever number of retries it
    is given and whatever the random draws. *)
Theorem intruders_level_0_diverges (word : string) (g : rng) :
  3 ≤ String.length word →
  PyStr.contains PyStr.punctuation word = false →
  (∀ punct g1, ∃ g2,
      intruders_scan (String.length word) 0 punct (PyStr.chars_of word) 1 g1
      = Ret (PyStr.chars_of word, g2))
  ∧ (∀ fuel, intruders fuel word 0 g = Diverge).
Proof.
  intros Hlen Hpunct. split.
  - intros punct g1.
    pose proof (intruders_scan_level_0 (String.length word) punct
                  (PyStr.chars_of word) 1 g1) as Hscan.
    apply returns_inv in Hscan as (chars' & g2 & Hrun & ->);
      [eauto | rewrite length_chars_of; lia].
  - intros fuel. unfold intruders.
    pose proof (choice_returns (PyStr.chars_of PyStr.punctuation) g) as Hc.
    apply returns_inv in Hc as (punct & g1 & Hrun & _); [|done].
    rewrite bind_unfold, Hrun, Hpunct.
    destruct (Nat.ltb_spec (String.length word) 2); [lia|].
    destruct (Nat.eqb_spec (String.length word) 2); [lia|].
    apply intruders_loop_level_0.
Qed.

Lemma intruders_level_0_diverges_witness :
  intruders 1000 "hello" 0 tape0 = Diverge.
Proof.
  apply (intruders_level_0_diverges "hello" tape0).
  - simpl. lia.
  - reflexivity.
Defined.

(** ** Disemvoweling *)

Section DisemvowelFacts.

(** The two vowel tests of the code, [char.upper() in "AEIOU"] and the
    class [[AEIOU]] under [re.IGNORECASE], pick the ten vowel letters. *)
Lemma upper_in_vocals c :
  PyStr.contains vocals_default (String (PyStr.upper_char c) "") = is_vowel c.
Proof. by destruct c as [[] [] [] [] [] [] [] []]. Qed.

Lemma class_matches_vocals c :
  PyStr.class_matches_ignorecase vocals_default c = is_vowel c.
Proof. by destruct c as [[] [] [] [] [] [] [] []]. Qed.

Lemma count_vowels_filter word :
  count_vowels word vocals_default
  = length (filter (λ c, is_vowel c = true) (PyStr.chars_of word)).
Proof.
  unfold count_vowels.
  enough (Hgen : ∀ cs n,
    foldl (λ count char,
             if PyStr.contains vocals_default (String (PyStr.upper_char char) "")
             then count + 1 else count) n cs
    = n + length (filter (λ c, is_vowel c = true) cs)).
  { by rewrite Hgen. }
  induction cs as [|c cs IH]; intros n; cbn [foldl]; [simpl; lia|].
  rewrite IH, upper_in_vocals, filter_cons.
  destruct (is_vowel c); simpl; lia.
Qed.

Lemma filter_Forall_id {X : Type} (P : X → Prop) `{!∀ x, Decision (P x)}
    (l : list X) :
  Forall P l → filter P l = l.
Proof.
  induction 1 as [|x l Hx _ IH]; [done|].
  by rewrite filter_cons_True, IH.
Qed.

Lemma count_vowels_all word :
  count_vowels word vocals_default = String.length word ↔ all_vowels word.
Proof.
  rewrite count_vowels_filter, <- length_chars_of. unfold all_vowels. split.
  - intros Hlen. destruct (decide (Forall (λ c, is_vowel c = true)
                                     (PyStr.chars_of word))) as [|Hno]; [done|].
    apply not_Forall_Exists, Exists_exists in Hno as (c & Hin & Hc); [|apply _].
    pose proof (length_filter_lt _ _ _ Hin Hc). lia.
  - intros Hall. by rewrite filter_Forall_id.
Qed.

Lemma re_sub_vocals word :
  PyStr.re_sub_class_ignorecase vocals_default word = remove_vowels word.
Proof.
  unfold PyStr.re_sub_class_ignorecase, remove_vowels. f_equal.
  apply list_filter_iff. intros c. by rewrite class_matches_vocals.
Qed.

End DisemvowelFacts.




(** ** Budgeted selector *)

Section ListFacts.

Lemma list_remove_elem_of (x : nat) (l : list nat) :
  x ∈ l → ∃ l', list_remove x l = Some l' ∧ l ≡ₚ x :: l'.
Proof.
  induction l as [|y l IH]; intros Hin; [by apply elem_of_nil in Hin|].
  simpl. case_decide as Hxy.
  - subst y. eauto.
  - apply elem_of_cons in Hin as [?|Hin]; [done|].
    destruct (IH Hin) as (l' & -> & Hperm). exists (y :: l'). split; [done|].
    rewrite Hperm. apply Permutation_swap.
Qed.

(** Writing [x] over an item that two lists share changes the number of
    positions at which they differ by one exactly when [x] is new. *)
Lemma count_changed_insert (ws ws0 : list string) (i : nat) (w x : string) :
  ws !! i = Some w → ws0 !! i = Some w →
  count_changed (<[i := x]> ws) ws0
  = count_changed ws ws0 + (if decide (x ≠ w) then 1 else 0).
Proof.
  unfold count_changed. revert ws0 i.
  induction ws as [|a ws IH]; intros [|b ws0] [|i] Hws Hws0;
    simplify_eq/=; rewrite ?filter_cons; simpl.
  - repeat case_decide; simpl; try done; lia.
  - specialize (IH _ _ Hws Hws0).
    destruct (decide (a ≠ b)); simpl; rewrite IH; lia.
Qed.

Lemma count_changed_refl (ws : list string) : count_changed ws ws = 0.
Proof.
  unfold count_changed. induction ws as [|a ws IH]; [done|].
  simpl. by rewrite filter_cons_False by (simpl; auto).
Qed.

End ListFacts.

Section SelectorFacts.

Variable transform : string → M string.
Variable target : Q.
Variable words0 : list string.

Lemma selector_inv_init : selector_inv target words0 (selector_init words0).
Proof.
  split; simpl; auto using count_changed_refl.
Qed.

Lemma selector_loop_eq fuel st :
  selector_loop transform target fuel st =
  if below_target (perturbed_words st) target then
    if length (word_indexes st) <? 1 then mret st
    else
      match fuel with
      | O => diverge
      | S fuel' =>
          index ← Rand.choice (word_indexes st);
          match list_remove index (word_indexes st) with
          | None => raise (ValueError ["list.remove(x): x not in list"])
          | Some word_indexes' =>
              match words st !! index with
              | None => raise IndexError
              | Some word =>
                  perturbed_word ← transform word;
                  selector_loop transform target fuel'
                    (Selector (<[index := perturbed_word]> (words st))
                              word_indexes'
                              (perturbed_words st +
                                 (if decide (perturbed_word ≠ word) then 1 else 0))
                              (attempted st ++ [index]))
              end
          end
      end
  else mret st.
Proof. destruct fuel; reflexivity. Qed.

(** One round keeps the invariant. *)
Lemma selector_inv_step st index pool' word perturbed_word :
  selector_inv target words0 st →
  below_target (perturbed_words st) target = true →
  word_indexes st ≡ₚ index :: pool' →
  words st !! index = Some word →
  selector_inv target words0
    (Selector (<[index := perturbed_word]> (words st)) pool'
              (perturbed_words st + (if decide (perturbed_word ≠ word) then 1 else 0))
              (attempted st ++ [index])).
Proof.
  intros [Hlen Hpool Hsame Hcount Hbound] Hbelow Hrem Hword.
  assert (Hnodup : NoDup (index :: pool')).
  { rewrite <- Hrem. eapply NoDup_app. rewrite Hpool. apply NoDup_seq. }
  apply NoDup_cons in Hnodup as [Hfresh _].
  assert (Hin : index ∈ word_indexes st) by (rewrite Hrem; left).
  split; simpl.
  - by rewrite length_insert.
  - by rewrite <- Hpool, Hrem, <- app_assoc.
  - intros i Hi. rewrite list_lookup_insert_ne by (intros ->; done).
    apply Hsame. rewrite Hrem. by right.
  - rewrite Hcount. symmetry. apply count_changed_insert; [done|].
    by rewrite <- Hsame.
  - apply Qltb_lt in Hbelow. case_decide.
    + right. replace (Z.of_nat (perturbed_words st + 1) - 1)%Z
        with (Z.of_nat (perturbed_words st)) by lia. done.
    + by rewrite Nat.add_0_r.
Qed.

(** The loop: when it returns, the invariant holds and the exit condition
    is met; it can fail to return only for want of fuel against the size
    of the pool, or because the transform itself does not return. *)
Lemma selector_loop_post fuel :
  ∀ st g,
    selector_inv target words0 st →
    post (selector_loop transform target fuel st) g
         (λ st' _, selector_inv target words0 st' ∧ selector_exit target st')
         (λ _, True)
         (fuel < length (word_indexes st) ∨ ∃ w g', transform w g' = Diverge).
Proof.
  induction fuel as [|fuel IH]; intros st g Hinv; rewrite selector_loop_eq;
    destruct (below_target (perturbed_words st) target) eqn:Hbelow;
    try (apply post_ret; split; [done | by left]);
    destruct (Nat.ltb_spec (length (word_indexes st)) 1) as [Hempty|Hpool];
    try (apply post_ret; split; [done | right; apply length_zero_iff_nil; lia]).
  { left. lia. }
  apply post_bind.
  eapply post_mono; [| | | apply (returns_post _ _ _ (λ _, True) False),
                            (choice_returns (word_indexes st) g)];
    [| done | done | by destruct (word_indexes st); [simpl in Hpool; lia|]].
  intros index g1 Hin. simpl in Hin.
  destruct (list_remove_elem_of _ _ Hin) as (pool' & -> & Hrem).
  assert (Hlt : index < length (words st)).
  { rewrite (inv_length _ _ _ Hinv). apply (elem_of_seq 0).
    rewrite <- (inv_pool _ _ _ Hinv). apply elem_of_app. by right. }
  apply lookup_lt_is_Some in Hlt as [word Hword]. rewrite Hword.
  unfold post. rewrite bind_unfold.
  destruct (transform word g1) as [[perturbed_word g2]| |] eqn:Htr;
    [| done | right; eauto].
  pose proof (IH _ g2 (selector_inv_step _ _ _ _ perturbed_word
                         Hinv Hbelow Hrem Hword)) as Hrec.
  unfold post in Hrec. simpl in Hrec.
  destruct (selector_loop _ _ _ _ g2) as [[st' g3]| |]; [done | done |].
  destruct Hrec as [Hfuel|Hdiv]; [left | by right].
  rewrite Hrem. simpl. lia.
Qed.

End SelectorFacts.

Section BudgetFacts.



Lemma below_target_level_0 (tokens : list string) (n : nat) :
  below_target n (perturb_target tokens 0) = false.
Proof.
  apply Qltb_ge. unfold perturb_target. rewrite Qmult_0_r.
  change 0%Q with (inject_Z 0). rewrite <- Zle_Qle. lia.
Qed.

End BudgetFacts.

(** C6. Over a sequence of N tokens, for every word transform that comes
    back (with a word or with an exception) and every sequence of random
    draws, N rounds of fuel are enough for the selection loop to end; when it
    returns, the positions it attempted are pairwise distinct, none of them
    is left in the pool (each was taken out before its word was handed to the
    transform), each is a position of the sequence, their number, which is
    the number of rounds, is at most N, and together with the pool they are
    the N positions. *)
Theorem selector_attempts_each_position_once
    (transform : string → M string) (tokens : list string) (level : Q)
    (fuel : nat) (g : rng) :
  (∀ w g1, transform w g1 ≠ Diverge) →
  length tokens ≤ fuel →
  selector_loop transform (perturb_target tokens level) fuel
    (selector_init tokens) g ≠ Diverge
  ∧ ∀ st g',
      selector_loop transform (perturb_target tokens level) fuel
        (selector_init tokens) g = Ret (st, g') →
      NoDup (attempted st)
      ∧ length (attempted st) ≤ length tokens
      ∧ (∀ i, i ∈ attempted st → i < length tokens ∧ i ∉ word_indexes st)
      ∧ attempted st ++ word_indexes st ≡ₚ seq 0 (length tokens).
Proof.
  intros Htransform Hfuel.
  pose proof (selector_loop_post transform (perturb_target tokens level) tokens
                fuel (selector_init tokens) g
                (selector_inv_init _ _)) as Hpost.
  unfold post in Hpost.
  destruct (selector_loop _ _ _ _ g) as [[st1 g1]| |].
  - split; [done|]. intros st g' [= <- <-].
    destruct Hpost as [[_ Hpool _ _ _] _].
    assert (Hnodup : NoDup (attempted st1 ++ word_indexes st1)).
    { rewrite Hpool. apply NoDup_seq. }
    apply NoDup_app in Hnodup as (Hnd & Hdisj & _).
    repeat split; [done | | | by apply Hdisj | done].
    + apply Permutation_length in Hpool.
      rewrite length_app, length_seq in Hpool. lia.
    + apply (elem_of_seq 0). rewrite <- Hpool. apply elem_of_app. by left.
  - split; [done|]. intros ? ? [=].
  - exfalso. destruct Hpost as [Hshort|(w & g1 & Hdiv)].
    + simpl in Hshort. rewrite length_seq in Hshort. lia.
    + by apply (Htransform w g1).
Qed.

Lemma selector_attempts_each_position_once_witness :
  selector_loop (apply_attack ∅ ∅ 0 TRUNCATE 1)
    (perturb_target ["hello"; "cat"; "apples"] 1) 3
    (selector_init ["hello"; "cat"; "apples"]) tape0 ≠ Diverge.
Proof.
  apply (selector_attempts_each_position_once
           (apply_attack ∅ ∅ 0 TRUNCATE 1) ["hello"; "cat"; "apples"] 1 3 tape0).
  - intros w g1. discriminate.
  - simpl. lia.
Defined.


(** ** Facade *)

Lemma simple_perturb_level_0
    (word_tokenize : string → list string) (detokenize : list string → string)
    (NN typos : gmap string (list string)) (fuel : nat) (text : string) (g : rng) :
  simple_perturb word_tokenize detokenize NN typos fuel text
    (MethodStr "full-swap") 0 g
  = Ret (detokenize (word_tokenize text), g).
Proof.
  unfold simple_perturb. rewrite bind_unfold. simpl.
  rewrite bind_unfold, selector_loop_eq, below_target_level_0. reflexivity.
Qed.

(** C7 (as amended). At level 0 a full swap draws nothing and attempts no
    mutation: [simple_perturb] returns the detokenized tokens of the text,
    which is the text itself whenever detokenizing its tokens gives the text
    back. *)
Theorem perturb_level_0_keeps_tokens
    (word_tokenize : string → list string) (detokenize : list string → string)
    (NN typos : gmap string (list string)) (fuel : nat) (text : string) (g : rng) :
  simple_perturb word_tokenize detokenize NN typos fuel text
    (MethodStr "full-swap") 0 g
  = Ret (detokenize (word_tokenize text), g)
  ∧ (detokenize (word_tokenize text) = text →
     simple_perturb word_tokenize detokenize NN typos fuel text
       (MethodStr "full-swap") 0 g
     = Ret (text, g)).
Proof.
  pose proof (simple_perturb_level_0 word_tokenize detokenize NN typos fuel
                text g) as Hrun.
  split; [done|]. intros Hid. by rewrite Hrun, Hid.
Qed.

Lemma perturb_level_0_keeps_tokens_witness :
  simple_perturb split_tokenize space_detokenize ∅ ∅ 0 "a b" (MethodStr "full-swap") 0 tape0
  = Ret ("a b", tape0).
Proof.
  apply (perturb_level_0_keeps_tokens split_tokenize space_detokenize ∅ ∅ 0 "a b" tape0).
  reflexivity.
Defined.

(** C7 as first stated does not hold: the tokens do not record how they were
    spaced in the text. *)
Lemma perturb_level_0_respaces_text :
  ¬ (∀ (word_tokenize : string → list string) (detokenize : list string → string)
       (NN typos : gmap string (list string)) fuel text g,
       ∃ g', simple_perturb word_tokenize detokenize NN typos fuel text
               (MethodStr "full-swap") 0 g = Ret (text, g')).
Proof.
  intros Hclaim.
  destruct (Hclaim split_tokenize space_detokenize ∅ ∅ 0 "a  b" tape0) as [g' Hrun].
  rewrite simple_perturb_level_0 in Hrun. discriminate Hrun.
Qed.

(** ** Level validation *)

Create HintDb quiet discriminated.

#[local] Hint Resolve quiet_ret quiet_diverge quiet_bind : quiet.
#[local] Hint Extern 1 (quiet (raise _)) => apply quiet_raise; discriminate : quiet.
#[local] Hint Extern 3 (quiet (match ?x with _ => _ end)) => destruct x : quiet.

Ltac quiet := intros; auto 20 with quiet.

Section QuietFacts.

Lemma quiet_next : quiet Rand.next.
Proof. intros g. discriminate. Qed.
Hint Resolve quiet_next : quiet.

Lemma quiet_unit_interval : quiet Rand.unit_interval.
Proof. unfold Rand.unit_interval. quiet. Qed.
Hint Resolve quiet_unit_interval : quiet.

Lemma quiet_randint lo hi : quiet (Rand.randint lo hi).
Proof. unfold Rand.randint. quiet. Qed.

Lemma quiet_choice {X : Type} (s : list X) : quiet (Rand.choice s).
Proof. unfold Rand.choice. quiet. Qed.
Hint Resolve quiet_randint quiet_choice : quiet.

Lemma quiet_shuffle_from {X : Type} (i : nat) :
  ∀ x : list X, quiet (Rand.shuffle_from i x).
Proof. induction i as [|i IH]; intros; cbn [Rand.shuffle_from]; quiet. Qed.

Lemma quiet_shuffle_string w : quiet (shuffle_string w).
Proof.
  unfold shuffle_string, Rand.shuffle.
  apply quiet_bind; [apply quiet_shuffle_from | quiet].
Qed.
Hint Resolve quiet_shuffle_string : quiet.

Lemma quiet_swap word inner : quiet (swap word inner).
Proof.
  unfold swap.
  enough (∀ fuel perturbed tries, quiet (swap_loop fuel word inner perturbed tries))
    by quiet.
  induction fuel as [|fuel IH]; intros; rewrite swap_loop_eq; quiet.
Qed.

Lemma quiet_intruders_scan fuel level punct :
  ∀ chars i, quiet (intruders_scan fuel level punct chars i).
Proof. induction fuel as [|fuel IH]; intros; rewrite intruders_scan_eq; quiet. Qed.
Hint Resolve quiet_intruders_scan : quiet.

Lemma quiet_intruders fuel word level : quiet (intruders fuel word level).
Proof.
  unfold intruders.
  enough (∀ punct chars perturbed,
            quiet (intruders_loop fuel word level punct chars perturbed))
    by quiet.
  induction fuel as [|fuel IH]; intros; rewrite intruders_loop_eq; quiet.
Qed.

Lemma quiet_key NN word probability : quiet (key NN word probability).
Proof. unfold key, key_apply. quiet. Qed.

Lemma quiet_natural typos word precentage : quiet (natural typos word precentage).
Proof. unfold natural, natural_apply. quiet. Qed.

Lemma quiet_segmentation word_tokenize detokenize text probability :
  quiet (segmentation word_tokenize detokenize text probability).
Proof.
  unfold segmentation, segmentation_tokens.
  enough (∀ tokens result buffer,
            quiet (segmentation_loop probability tokens result buffer))
    by quiet.
  induction tokens as [|word rest IH]; intros; cbn [segmentation_loop]; quiet.
Qed.

Hint Resolve quiet_swap quiet_intruders quiet_key quiet_natural : quiet.

Lemma quiet_apply_attack NN typos fuel method level word :
  quiet (apply_attack NN typos fuel method level word).
Proof. unfold apply_attack. quiet. Qed.

Lemma quiet_selector_loop (transform : string → M string) target fuel :
  (∀ w, quiet (transform w)) →
  ∀ st, quiet (selector_loop transform target fuel st).
Proof.
  intros Htransform.
  induction fuel as [|fuel IH]; intros; rewrite selector_loop_eq; quiet.
Qed.

Lemma level_ok_spec level : level_ok level = true ↔ (0 <= level ∧ level <= 1)%Q.
Proof. unfold level_ok. by rewrite andb_true_iff, !Qle_bool_iff. Qed.

Lemma recognized_converts method :
  recognized method →
  ∃ attack, ∀ g,
    (match method with
     | MethodStr as_string => fromString as_string
     | MethodEnum attack => mret attack
     end) g = Ret (attack, g).
Proof.
  destruct method as [as_string|attack]; simpl; [|by eauto].
  rewrite !elem_of_cons, elem_of_nil.
  intros [->|[->|[->|[->|[->|[->|[->|[->|[]]]]]]]]]; by eexists.
Qed.

End QuietFacts.

(** C8. For a recognized method, [simple_perturb] ends in the
    level-validation error whenever the level is outside [0, 1], before
    anything is tokenized or drawn, and never does when the level is inside,
    whatever the text, the tables, the fuel and the random draws. *)
Theorem level_validation
    (word_tokenize : string → list string) (detokenize : list string → string)
    (NN typos : gmap string (list string)) (fuel : nat) (text : string)
    (method : method_arg) (level : Q) (g : rng) :
  recognized method →
  (¬ (0 <= level ∧ level <= 1)%Q →
   simple_perturb word_tokenize detokenize NN typos fuel text method level g
   = Raise InvalidLevel)
  ∧ ((0 <= level ∧ level <= 1)%Q →
     simple_perturb word_tokenize detokenize NN typos fuel text method level g
     ≠ Raise InvalidLevel).
Proof.
  intros Hmethod.
  destruct (recognized_converts _ Hmethod) as [attack Hconv].
  unfold simple_perturb. rewrite bind_unfold, Hconv.
  rewrite <- level_ok_spec.
  destruct (level_ok level); simpl; split; try done. intros _.
  assert (Hsel : quiet
            (st ← selector_loop (apply_attack NN typos fuel attack level)
                    (perturb_target (word_tokenize text) level) fuel
                    (selector_init (word_tokenize text));
             mret (detokenize (words st)))).
  { apply quiet_bind; [|intros; apply quiet_ret].
    apply quiet_selector_loop. intros w. apply quiet_apply_attack. }
  destruct attack; try apply Hsel. apply quiet_segmentation.
Qed.

Lemma level_validation_witness :
  simple_perturb split_tokenize space_detokenize ∅ ∅ 5 "I like apples"
    (MethodStr "intrude") (3 # 2) tape0 = Raise InvalidLevel
  ∧ simple_perturb split_tokenize space_detokenize ∅ ∅ 5 "I like apples"
      (MethodStr "intrude") (1 # 2) tape0 ≠ Raise InvalidLevel.
Proof.
  split.
  - apply (proj1 (level_validation split_tokenize space_detokenize ∅ ∅ 5
                    "I like apples" (MethodStr "intrude") (3 # 2) tape0
                    ltac:(simpl; set_solver))).
    intros [_ Hle]. by apply Hle.
  - apply (proj2 (level_validation split_tokenize space_detokenize ∅ ∅ 5
                    "I like apples" (MethodStr "intrude") (1 # 2) tape0
                    ltac:(simpl; set_solver))).
    split; discriminate.
Defined.

(** ** Table transforms *)

Section TableFacts.

Lemma join_app (a b : list string) :
  PyStr.join (a ++ b) = PyStr.join a +:+ PyStr.join b.
Proof.
  induction a as [|x a IH]; simpl; [done|]. by rewrite IH, append_assoc.
Qed.

Lemma join_singletons (w : string) : PyStr.join (PyStr.singletons w) = w.
Proof.
  unfold PyStr.singletons. rewrite <- (join_chars_chars_of w) at 2.
  induction (PyStr.chars_of w) as [|c cs IH]; simpl; [done | by rewrite <- IH].
Qed.

Lemma append_inv_tail (s1 s2 t : string) : s1 +:+ t = s2 +:+ t → s1 = s2.
Proof.
  intros Heq. apply chars_of_inj.
  apply (f_equal PyStr.chars_of) in Heq. rewrite !chars_of_append in Heq.
  by apply app_inv_tail in Heq.
Qed.

(** Overwriting one part leaves the joined string as it was only when the
    new part is the old one. *)
Lemma join_insert_same (parts : list string) (i : nat) (old new : string) :
  parts !! i = Some old →
  PyStr.join (<[i := new]> parts) = PyStr.join parts → new = old.
Proof.
  intros Hi Heq. pose proof (lookup_lt_Some _ _ _ Hi) as Hlt.
  rewrite insert_take_drop in Heq by done.
  rewrite <- (take_drop_middle parts i old) in Heq at 3 by done.
  rewrite !join_app in Heq. simpl in Heq.
  apply (inj (String.app _)) in Heq. by apply append_inv_tail in Heq.
Qed.

(** With probability 1 the gate of [key] and [natural] lets every draw
    through. *)
Lemma gate_passes (g : rng) :
  ∃ r g1, Rand.random g = Ret (r, g1) ∧ Qltb 1 r = false.
Proof.
  pose proof (unit_interval_gate g) as Hgate.
  apply returns_inv in Hgate as (r & g1 & Hrun & Hr & _). eauto.
Qed.

Lemma keyboard_sample_ok : keyboard_table_ok keyboard_sample.
Proof.
  unfold keyboard_sample.
  intros k neighbours [<- <-]%lookup_singleton_Some.
  split; [done|]. intros Hin.
  repeat (apply elem_of_cons in Hin as [?|Hin]; [discriminate|]).
  by apply elem_of_nil in Hin.
Qed.

Lemma typos_sample_ok : typo_table_ok typos_sample.
Proof.
  unfold typos_sample.
  intros w variants [<- <-]%lookup_singleton_Some. intros Hin.
  repeat (apply elem_of_cons in Hin as [?|Hin]; [discriminate|]).
  by apply elem_of_nil in Hin.
Qed.

End TableFacts.

(** C10. [simple_perturb] calls [key] and [natural] with the word alone: the
    probability is the default 1.0, whatever the perturbation level, and with
    it the gate lets every random draw through.  On tables as the data model
    describes them, a word that comes back unchanged from [key] had its
    picked character absent from the keyboard table, and a word that comes
    back unchanged from [natural] is absent from the typo table. *)
Theorem table_typos_always_applied
    (NN typos : gmap string (list string)) (fuel : nat) (level : Q)
    (word : string) (g : rng) :
  keyboard_table_ok NN →
  typo_table_ok typos →
  apply_attack NN typos fuel TYPO_KEYBOARD level word = key NN word 1
  ∧ apply_attack NN typos fuel TYPO_NATURAL level word = natural typos word 1
  ∧ (∃ r g1, Rand.random g = Ret (r, g1)
             ∧ key NN word 1 g = key_apply NN word g1
             ∧ natural typos word 1 g = natural_apply typos word g1)
  ∧ (∀ g', key NN word 1 g = Ret (word, g') →
           ∃ r g1 i g2 char,
             Rand.random g = Ret (r, g1)
             ∧ Rand.randint 0 (Z.of_nat (String.length word) - 1) g1 = Ret (i, g2)
             ∧ PyStr.singletons word !! Z.to_nat i = Some char
             ∧ NN !! char = None)
  ∧ (∀ g', natural typos word 1 g = Ret (word, g') → typos !! word = None).
Proof.
  intros HNN Htypos.
  destruct (gate_passes g) as (r & g1 & Hrandom & Hgate).
  assert (Hkey : key NN word 1 g = key_apply NN word g1).
  { unfold key. by rewrite bind_unfold, Hrandom, Hgate. }
  assert (Hnatural : natural typos word 1 g = natural_apply typos word g1).
  { unfold natural. by rewrite bind_unfold, Hrandom, Hgate. }
  split; [done|]. split; [done|]. split; [by eauto|]. split.
  - intros g'. rewrite Hkey. unfold key_apply. intros Hrun.
    apply bind_ret_inv in Hrun as (i & g2 & Hi & Hrun).
    unfold PyStr.singletons in Hi at 1.
    rewrite length_fmap, length_chars_of in Hi.
    destruct (PyStr.singletons word !! Z.to_nat i) as [char|] eqn:Hchar;
      [|discriminate].
    exists r, g1, i, g2, char. repeat split; try done.
    case_decide as Hfound; [exfalso | by apply eq_None_not_Some].
    destruct Hfound as [neighbours Hneighbours].
    destruct (HNN _ _ Hneighbours) as [Hlower Hself].
    rewrite Hlower, Hneighbours in Hrun.
    apply bind_ret_inv in Hrun as (k & g3 & _ & Hrun).
    destruct (neighbours !! Z.to_nat k) as [neighbour|] eqn:Hk; [|discriminate].
    injection Hrun as Hjoin _.
    rewrite <- (join_singletons word) in Hjoin at 2.
    apply (join_insert_same _ _ char) in Hjoin; [|done]. subst neighbour.
    apply Hself. eapply list_elem_of_lookup_2, Hk.
  - intros g'. rewrite Hnatural. unfold natural_apply.
    destruct (typos !! word) as [variants|] eqn:Hword; [|done].
    intros Hrun. exfalso.
    apply bind_ret_inv in Hrun as (k & g2 & _ & Hrun).
    destruct (variants !! Z.to_nat k) as [variant|] eqn:Hk; [|discriminate].
    injection Hrun as -> _.
    apply (Htypos _ _ Hword). eapply list_elem_of_lookup_2, Hk.
Qed.

Lemma table_typos_always_applied_witness :
  apply_attack keyboard_sample typos_sample 5 TYPO_KEYBOARD (1 # 5) "cat"
  = key keyboard_sample "cat" 1
  ∧ apply_attack keyboard_sample typos_sample 5 TYPO_NATURAL (1 # 5) "cat"
    = natural typos_sample "cat" 1.
Proof.
  destruct (table_typos_always_applied keyboard_sample typos_sample 5 (1 # 5)
              "cat" tape0 keyboard_sample_ok typos_sample_ok)
    as (Hkey & Hnatural & _).
  split; [exact Hkey | exact Hnatural].
Defined.

(** C2, on the code.  [key] tests the picked character itself against the
    table ([char in NN]) and folds the case only afterwards: whatever is
    drawn, a capital letter whose lower-case form has neighbours comes back
    unchanged.  On a table that also has upper-case keys the replacement is
    made from the lower-case entry and stays in lower case, the result of
    [word[i].upper()] being dropped. *)
Theorem key_capital_letter (g : rng) :
  is_Some (keyboard_sample !! PyStr.lower "A")
  ∧ (∃ g', key keyboard_sample "A" 1 g = Ret ("A", g'))
  ∧ (∃ g', key keyboard_two_cases "A" 1 g = Ret ("q", g')).
Proof.
  destruct (gate_passes g) as (r & g1 & Hrandom & Hgate).
  split; [by eexists|].
  assert (Hpick : ∀ g2, ∃ g3, Rand.randint 0 0 g2 = Ret (0%Z, g3)).
  { intros g2. eexists. unfold Rand.randint. simpl.
    rewrite bind_unfold. simpl. by rewrite Z.mod_1_r. }
  destruct (Hpick g1) as [g2 Hi]. destruct (Hpick g2) as [g3 Hk].
  assert (Hstart : ∀ NN, key NN "A" 1 g
            = (if decide (is_Some (NN !! "A")) then
                 match NN !! "a" with
                 | Some neighbours =>
                     k ← Rand.randint 0 (Z.of_nat (length neighbours) - 1);
                     match neighbours !! Z.to_nat k with
                     | Some neighbour => mret (PyStr.join [neighbour])
                     | None => raise IndexError
                     end
                 | None => raise (KeyError "a")
                 end
               else mret "A") g2).
  { intros NN. unfold key. rewrite bind_unfold, Hrandom, Hgate.
    unfold key_apply. rewrite bind_unfold.
    change (Z.of_nat (length (PyStr.singletons "A")) - 1)%Z with 0%Z.
    rewrite Hi. reflexivity. }
  split.
  - exists g2. rewrite Hstart. case_decide as Hfound; [|done].
    destruct Hfound as [? Hfound]. vm_compute in Hfound. discriminate Hfound.
  - exists g3. rewrite Hstart. case_decide as Hfound.
    + change (keyboard_two_cases !! "a") with (Some ["q"]).
      cbv beta iota. rewrite bind_unfold.
      change (Z.of_nat (length ["q"]) - 1)%Z with 0%Z.
      rewrite Hk. reflexivity.
    + exfalso. apply Hfound. by exists ["Q"].
Qed.

(** ** Termination of the facade *)

Create HintDb comes_back discriminated.

#[local] Hint Resolve comes_back_ret comes_back_raise comes_back_bind : comes_back.
#[local] Hint Extern 3 (comes_back (match ?x with _ => _ end)) => destruct x : comes_back.

Ltac comes_back := intros; auto 20 with comes_back.

Section ComesBackFacts.

Lemma comes_back_next : comes_back Rand.next.
Proof. intros g. discriminate. Qed.
Hint Resolve comes_back_next : comes_back.

Lemma comes_back_unit_interval : comes_back Rand.unit_interval.
Proof. unfold Rand.unit_interval. comes_back. Qed.

Lemma comes_back_randint lo hi : comes_back (Rand.randint lo hi).
Proof. unfold Rand.randint. comes_back. Qed.

Lemma comes_back_choice {X : Type} (s : list X) : comes_back (Rand.choice s).
Proof. unfold Rand.choice. comes_back. Qed.

Lemma comes_back_shuffle_string w : comes_back (shuffle_string w).
Proof.
  apply returns_comes_back. intros g.
  eapply returns_mono; [| apply shuffle_string_Permutation]. done.
Qed.

Hint Resolve comes_back_unit_interval comes_back_randint comes_back_choice
  comes_back_shuffle_string : comes_back.

(** The ten tries bound the retry loop of both kinds of swap. *)
Lemma comes_back_swap_loop fuel word inner :
  ∀ perturbed tries,
    10 ≤ tries + fuel → comes_back (swap_loop fuel word inner perturbed tries).
Proof.
  induction fuel as [|fuel IH]; intros perturbed tries Hfuel;
    rewrite swap_loop_eq; case_decide; try apply comes_back_ret;
    destruct (Nat.ltb_spec 10 (S tries)); try apply comes_back_ret; [lia|].
  apply comes_back_bind; [comes_back|]. intros perturbed'. apply IH. lia.
Qed.

Lemma comes_back_swap word inner : comes_back (swap word inner).
Proof.
  unfold swap. destruct (_ || _); [apply comes_back_ret|].
  apply comes_back_swap_loop. lia.
Qed.

Lemma comes_back_key NN word probability : comes_back (key NN word probability).
Proof. unfold key, key_apply. comes_back. Qed.

Lemma comes_back_natural typos word precentage :
  comes_back (natural typos word precentage).
Proof. unfold natural, natural_apply. comes_back. Qed.

Lemma comes_back_segmentation word_tokenize detokenize text probability :
  comes_back (segmentation word_tokenize detokenize text probability).
Proof.
  unfold segmentation, segmentation_tokens.
  enough (∀ tokens result buffer,
            comes_back (segmentation_loop probability tokens result buffer))
    by comes_back.
  induction tokens as [|word rest IH]; intros; cbn [segmentation_loop]; comes_back.
Qed.

Hint Resolve comes_back_swap comes_back_key comes_back_natural : comes_back.

(** Every word transform but [intruders] comes back. *)
Lemma comes_back_apply_attack NN typos fuel method level word :
  method ≠ INTRUDE → comes_back (apply_attack NN typos fuel method level word).
Proof. intros Hmethod. destruct method; try done; simpl; comes_back. Qed.

Lemma comes_back_selector_loop (transform : string → M string) tokens level fuel :
  (∀ w, comes_back (transform w)) →
  length tokens ≤ fuel →
  comes_back (selector_loop transform (perturb_target tokens level) fuel
                (selector_init tokens)).
Proof.
  intros Htransform Hfuel g Hdiv.
  pose proof (selector_loop_post transform (perturb_target tokens level) tokens
                fuel (selector_init tokens) g (selector_inv_init _ _)) as Hpost.
  unfold post in Hpost. rewrite Hdiv in Hpost.
  destruct Hpost as [Hshort|(w & g1 & Hw)].
  - simpl in Hshort. rewrite length_seq in Hshort. lia.
  - by apply (Htransform w g1).
Qed.

Lemma fromString_cases as_string g :
  (∃ attack, fromString as_string g = Ret (attack, g)
             ∧ (attack = INTRUDE → as_string = "intrude"))
  ∨ fromString as_string g = Raise (UnknownAttack as_string).
Proof.
  unfold fromString.
  repeat (case_decide; [left; eexists; split; [reflexivity | done]|]).
  by right.
Qed.

(** So does the facade, for every method but [INTRUDE], given one round of
    fuel per token. *)
Lemma comes_back_simple_perturb_enum word_tokenize detokenize NN typos fuel text
    attack level :
  attack ≠ INTRUDE →
  length (word_tokenize text) ≤ fuel →
  comes_back (simple_perturb word_tokenize detokenize NN typos fuel text
                (MethodEnum attack) level).
Proof.
  intros Hattack Hfuel g. unfold simple_perturb. rewrite bind_unfold. simpl.
  destruct (negb (level_ok level)); [discriminate|].
  assert (Hsel : comes_back
            (st ← selector_loop (apply_attack NN typos fuel attack level)
                    (perturb_target (word_tokenize text) level) fuel
                    (selector_init (word_tokenize text));
             mret (detokenize (words st)))).
  { apply comes_back_bind; [|intros; apply comes_back_ret].
    apply comes_back_selector_loop; [|done].
    intros w. by apply comes_back_apply_attack. }
  destruct attack; try apply Hsel. apply comes_back_segmentation.
Qed.

Lemma comes_back_simple_perturb word_tokenize detokenize NN typos fuel text
    method level :
  method ≠ MethodStr "intrude" → method ≠ MethodEnum INTRUDE →
  length (word_tokenize text) ≤ fuel →
  comes_back (simple_perturb word_tokenize detokenize NN typos fuel text method level).
Proof.
  intros Hstr Henum Hfuel.
  destruct method as [as_string|attack];
    [|apply comes_back_simple_perturb_enum; [congruence | done]].
  intros g.
  destruct (fromString_cases as_string g) as [(attack & Hconv & Hintrude)|Hraise].
  - assert (Hattack : attack ≠ INTRUDE) by (intros ->; apply Hstr; by rewrite Hintrude).
    pose proof (comes_back_simple_perturb_enum word_tokenize detokenize NN typos
                  fuel text attack level Hattack Hfuel g) as Henum'.
    unfold simple_perturb in *. rewrite bind_unfold in *. by rewrite Hconv.
  - unfold simple_perturb. rewrite bind_unfold, Hraise. discriminate.
Qed.

End ComesBackFacts.

(** ** Further properties of the budgeted selector *)

Section SelectorRule.

Variable transform : string → M string.
Variable target : Q.
Variable tokens : list string.
Variable I : selector → Prop.
Variable E : exn → Prop.
Variable D : Prop.

Hypothesis transform_post :
  ∀ word g, word ∈ tokens → post (transform word) g (λ _ _, True) E D.

Hypothesis I_step :
  ∀ st index pool' word perturbed_word g g',
    selector_inv target tokens st → I st →
    word_indexes st ≡ₚ index :: pool' →
    words st !! index = Some word → word ∈ tokens →
    transform word g = Ret (perturbed_word, g') →
    I (Selector (<[index := perturbed_word]> (words st)) pool'
                (perturbed_words st + (if decide (perturbed_word ≠ word) then 1 else 0))
                (attempted st ++ [index])).

(** A rule for the selection loop: an assertion [I] that every round keeps
    holds when the loop returns, together with the loop's own invariant and
    exit condition; the loop raises and diverges only as the transform does
    on the tokens, given one round of fuel per index of the pool. *)
Lemma selector_loop_rule fuel :
  ∀ st g,
    D ∨ length (word_indexes st) ≤ fuel →
    selector_inv target tokens st → I st →
    post (selector_loop transform target fuel st) g
         (λ st' _, selector_inv target tokens st' ∧ selector_exit target st' ∧ I st')
         E D.
Proof.
  induction fuel as [|fuel IH]; intros st g Hfuel Hinv HI;
    rewrite selector_loop_eq;
    destruct (below_target (perturbed_words st) target) eqn:Hbelow;
    try (apply post_ret; split; [done | split; [by left | done]]);
    destruct (Nat.ltb_spec (length (word_indexes st)) 1) as [Hempty|Hpool];
    try (apply post_ret; split;
         [done | split; [right; apply length_zero_iff_nil; lia | done]]).
  { destruct Hfuel as [HD|Hfuel]; [exact HD | lia]. }
  apply post_bind.
  eapply post_mono; [| | | apply (returns_post _ _ _ E D),
                            (choice_returns (word_indexes st) g)];
    [| done | done | by destruct (word_indexes st); [simpl in Hpool; lia|]].
  intros index g1 Hin. simpl in Hin.
  destruct (list_remove_elem_of _ _ Hin) as (pool' & -> & Hrem).
  assert (Hlt : index < length (words st)).
  { rewrite (inv_length _ _ _ Hinv). apply (elem_of_seq 0).
    rewrite <- (inv_pool _ _ _ Hinv). apply elem_of_app. by right. }
  apply lookup_lt_is_Some in Hlt as [word Hword]. rewrite Hword.
  assert (Htok : word ∈ tokens).
  { rewrite (inv_untouched _ _ _ Hinv index Hin) in Hword.
    eapply list_elem_of_lookup_2, Hword. }
  pose proof (transform_post word g1 Htok) as Htr.
  unfold post in *. rewrite bind_unfold.
  destruct (transform word g1) as [[perturbed_word g2]| |] eqn:Hrun; [| done | done].
  apply IH.
  - destruct Hfuel as [HD|Hfuel]; [by left | right].
    apply Permutation_length in Hrem. simpl in *. lia.
  - by apply selector_inv_step.
  - by eapply I_step.
Qed.

End SelectorRule.



(** X1. When the selection loop returns, the token sequence has the length it
    had at the start, and every position that was not attempted holds the
    token it held at the start.  This is so for every transform. *)
Theorem selector_keeps_unattempted_tokens
    (transform : string → M string) (tokens : list string) (level : Q)
    (fuel : nat) (g : rng) (st : selector) (g' : rng) :
  selector_loop transform (perturb_target tokens level) fuel
    (selector_init tokens) g = Ret (st, g') →
  length (words st) = length tokens
  ∧ ∀ i, i ∉ attempted st → words st !! i = tokens !! i.
Proof.
  intros Hrun.
  pose proof (selector_loop_post transform (perturb_target tokens level) tokens
                fuel (selector_init tokens) g (selector_inv_init _ _)) as Hpost.
  unfold post in Hpost. rewrite Hrun in Hpost.
  destruct Hpost as [[Hlen Hpool Hsame _ _] _].
  split; [done|]. intros i Hi.
  destruct (decide (i < length tokens)) as [Hlt|Hge].
  - apply Hsame.
    assert (Hin : i ∈ seq 0 (length tokens)) by (apply elem_of_seq; lia).
    rewrite <- Hpool in Hin. apply elem_of_app in Hin as [?|?]; done.
  - rewrite !lookup_ge_None_2; [done | lia | lia].
Qed.

Lemma selector_keeps_unattempted_tokens_witness :
  let tokens := ["hello"; "cat"; "apples"] in
  let st := Selector ["hell"; "cat"; "apples"] [1; 2] 1 [0] in
  selector_loop (apply_attack ∅ ∅ 0 TRUNCATE (1 # 4))
    (perturb_target tokens (1 # 4)) 3 (selector_init tokens) tape0
  = Ret (st, Rng (tape tape0) 1)
  ∧ length (words st) = length tokens
  ∧ words st !! 1 = tokens !! 1
  ∧ words st !! 2 = tokens !! 2.
Proof.
  intros tokens st.
  assert (Hrun : selector_loop (apply_attack ∅ ∅ 0 TRUNCATE (1 # 4))
                   (perturb_target tokens (1 # 4)) 3 (selector_init tokens) tape0
                 = Ret (st, Rng (tape tape0) 1))
    by (vm_compute; reflexivity).
  destruct (selector_keeps_unattempted_tokens _ _ _ _ _ _ _ Hrun)
    as [Hlen Hkept].
  split; [exact Hrun|]. split; [exact Hlen|].
  split; apply Hkept; simpl; intros Hin;
    apply list_elem_of_singleton in Hin; discriminate Hin.
Defined.

Section SelectorRuns.

Lemma below_target_level_1 (tokens : list string) (level : Q) (n : nat) :
  (level == 1)%Q →
  below_target n (perturb_target tokens level) = false → length tokens ≤ n.
Proof.
  intros Hlevel Hmet. apply Qltb_ge in Hmet.
  unfold perturb_target in Hmet. rewrite Hlevel, Qmult_1_r in Hmet.
  rewrite <- Zle_Qle in Hmet. lia.
Qed.

(** A transform that draws nothing, at level 1: every position is attempted
    and holds the image of its token. *)
Lemma selector_pure_level_1 (f : string → string) tokens level fuel g :
  (level == 1)%Q → length tokens ≤ fuel →
  returns (selector_loop (λ w, mret (f w)) (perturb_target tokens level) fuel
             (selector_init tokens)) g
          (λ st _, words st = f <$> tokens ∧ word_indexes st = []).
Proof.
  intros Hlevel Hfuel.
  eapply post_mono;
    [| | | apply (selector_loop_rule (λ w, mret (f w))
                    (perturb_target tokens level) tokens
                    (λ st, (∀ i, i ∈ attempted st →
                                 words st !! i = f <$> tokens !! i)
                           ∧ perturbed_words st ≤ length (attempted st))
                    (λ _, False) False)]; try done.
  - intros st g' (Hinv & Hexit & Hdone & Hcount).
    destruct Hinv as [Hlen Hpool Hsame _ _].
    assert (Hempty : word_indexes st = []).
    { destruct Hexit as [Hmet|Hempty]; [|done].
      apply (below_target_level_1 _ _ _ Hlevel) in Hmet.
      apply Permutation_length in Hpool.
      rewrite length_app, length_seq in Hpool.
      apply length_zero_iff_nil. lia. }
    split; [|done]. rewrite Hempty, app_nil_r in Hpool.
    apply list_eq. intros i. rewrite list_lookup_fmap.
    destruct (decide (i < length tokens)) as [Hlt|Hge].
    + apply Hdone. rewrite Hpool. apply elem_of_seq. lia.
    + rewrite !lookup_ge_None_2; [done | lia | lia].
  - intros st index pool' word perturbed_word g1 g2 Hinv [Hdone Hcount]
      Hrem Hword Htok [= <- <-]. simpl.
    destruct Hinv as [Hlen Hpool Hsame _ _].
    assert (Hin : index ∈ word_indexes st) by (rewrite Hrem; left).
    assert (Hfresh : index ∉ attempted st).
    { assert (Hnodup : NoDup (attempted st ++ word_indexes st))
        by (rewrite Hpool; apply NoDup_seq).
      apply NoDup_app in Hnodup as (_ & Hdisj & _). intros ?. by eapply Hdisj. }
    split.
    + intros i [Hi|Hi%list_elem_of_singleton]%elem_of_app.
      * rewrite list_lookup_insert_ne by (intros ->; done). by apply Hdone.
      * subst i. rewrite list_lookup_insert_eq by (by eapply lookup_lt_Some).
        by rewrite <- (Hsame _ Hin), Hword.
    + rewrite length_app. simpl. case_decide; lia.
  - right. simpl. by rewrite length_seq.
  - apply selector_inv_init.
  - split; [by intros i Hi%elem_of_nil | simpl; lia].
Qed.

(** A transform that gives every token back: the tokens stay as they are. *)
Lemma selector_noop (transform : string → M string) tokens target fuel g :
  (∀ w g1, w ∈ tokens → ∃ g2, transform w g1 = Ret (w, g2)) →
  length tokens ≤ fuel →
  returns (selector_loop transform target fuel (selector_init tokens)) g
          (λ st _, words st = tokens ∧ perturbed_words st = 0).
Proof.
  intros Hnoop Hfuel.
  eapply post_mono;
    [| | | apply (selector_loop_rule transform target tokens
                    (λ st, words st = tokens ∧ perturbed_words st = 0)
                    (λ _, False) False)]; try done.
  - by intros st g' (_ & _ & HI).
  - intros w g1 Hw. destruct (Hnoop w g1 Hw) as [g2 Hrun].
    unfold post. by rewrite Hrun.
  - intros st index pool' word perturbed_word g1 g2 _ [Hwords Hcount]
      _ Hword Htok Hrun. simpl.
    destruct (Hnoop word g1 Htok) as [g3 Hsame].
    rewrite Hsame in Hrun. injection Hrun as <- _.
    split; [by rewrite list_insert_id | rewrite decide_False by auto; lia].
  - right. simpl. by rewrite length_seq.
  - apply selector_inv_init.
Qed.

Lemma level_ok_1 level : (level == 1)%Q → level_ok level = true.
Proof. intros Hlevel. apply level_ok_spec. rewrite Hlevel. split; discriminate. Qed.

(** A word shorter than the bound of its attack comes back as it is. *)
Lemma apply_attack_untouched NN typos fuel attack level w g :
  String.length w < untouched_below attack →
  ∃ g', apply_attack NN typos fuel attack level w g = Ret (w, g').
Proof.
  destruct attack; simpl; intros Hshort; try lia.
  - exists g. unfold swap.
    by destruct (Nat.ltb_spec (String.length w) 3); [|lia].
  - exists g. unfold swap. rewrite andb_true_l.
    destruct (Nat.ltb_spec (String.length w) 4); [|lia]. by rewrite orb_true_r.
  - pose proof (choice_returns (PyStr.chars_of PyStr.punctuation) g) as Hc.
    apply returns_inv in Hc as (punct & g1 & Hrun & _); [|done].
    exists g1. unfold intruders. rewrite bind_unfold, Hrun.
    destruct (Nat.ltb_spec (String.length w) 2); [|lia]. by rewrite orb_true_r.
  - exists g. unfold disemvoweling, disemvoweling_with.
    by destruct (Nat.ltb_spec (String.length w) 3); [|lia].
  - exists g. unfold truncating, truncating_with, truncating_loop.
    rewrite length_chars_of.
    destruct (Nat.ltb_spec 3 (String.length w)); [lia|].
    by rewrite join_chars_chars_of.
Qed.

(** With no chance of a merge the segmenter emits every token on its own. *)
Lemma segmentation_loop_level_0 tokens :
  ∀ result g,
    returns (segmentation_loop 0 tokens result "") g
            (λ rb _, rb = (result ++ tokens, "")).
Proof.
  induction tokens as [|word rest IH]; intros result g; cbn [segmentation_loop].
  - apply post_ret. by rewrite app_nil_r.
  - apply returns_bind.
    eapply returns_mono; [| apply unit_interval_gate].
    intros u g1 [_ Hu]. simpl. rewrite Hu.
    eapply returns_mono; [| apply IH].
    intros rb g2 ->. by rewrite <- app_assoc.
Qed.

End SelectorRuns.

(** X2. At level 1, the attacks whose transform draws nothing ([DISEMVOWEL],
    [TRUNCATE]) reach every token: given a round of fuel per token,
    [simple_perturb] returns the detokenized sequence of the transformed
    tokens, in their order. *)
Theorem pure_attack_level_1
    (word_tokenize : string → list string) (detokenize : list string → string)
    (NN typos : gmap string (list string)) (fuel : nat) (text : string)
    (attack : SimpleAttack) (f : string → string) (level : Q) (g : rng) :
  pure_transform attack = Some f →
  (level == 1)%Q →
  length (word_tokenize text) ≤ fuel →
  ∃ g', simple_perturb word_tokenize detokenize NN typos fuel text
          (MethodEnum attack) level g
        = Ret (detokenize (f <$> word_tokenize text), g').
Proof.
  intros Hpure Hlevel Hfuel.
  pose proof (selector_pure_level_1 f (word_tokenize text) level fuel g
                Hlevel Hfuel) as Hsel.
  apply returns_inv in Hsel as (st & g' & Hrun & Hwords & _).
  exists g'. unfold simple_perturb. rewrite bind_unfold. simpl.
  rewrite (level_ok_1 _ Hlevel). simpl.
  destruct attack; simplify_eq/=; rewrite bind_unfold;
    unfold apply_attack; by rewrite Hrun, Hwords.
Qed.

Lemma pure_attack_level_1_witness :
  ∃ g', simple_perturb split_tokenize space_detokenize ∅ ∅ 5
          "I like apples very much" (MethodEnum DISEMVOWEL) 1 tape0
        = Ret ("I lk ppls vry mch", g').
Proof.
  apply (pure_attack_level_1 split_tokenize space_detokenize ∅ ∅ 5
           "I like apples very much" DISEMVOWEL disemvoweling 1 tape0).
  - reflexivity.
  - reflexivity.
  - vm_compute. lia.
Defined.

(** X3. Tokens below the length at which an attack starts to act come back
    untouched: when every token of the text is shorter than that length (3
    for a full swap and for disemvoweling, 4 for an inner swap and for
    truncating, 2 for intruders), [simple_perturb] returns the detokenized
    tokens as they were, at every valid level, the pool being exhausted
    without a single change. *)
Theorem short_tokens_untouched
    (word_tokenize : string → list string) (detokenize : list string → string)
    (NN typos : gmap string (list string)) (fuel : nat) (text : string)
    (attack : SimpleAttack) (level : Q) (g : rng) :
  Forall (λ w, String.length w < untouched_below attack) (word_tokenize text) →
  (0 <= level ∧ level <= 1)%Q →
  length (word_tokenize text) ≤ fuel →
  ∃ g', simple_perturb word_tokenize detokenize NN typos fuel text
          (MethodEnum attack) level g
        = Ret (detokenize (word_tokenize text), g').
Proof.
  intros Hshort Hlevel%level_ok_spec Hfuel.
  unfold simple_perturb. rewrite bind_unfold. simpl. rewrite Hlevel. simpl.
  assert (Hsel : ∃ g',
            (st ← selector_loop (apply_attack NN typos fuel attack level)
                    (perturb_target (word_tokenize text) level) fuel
                    (selector_init (word_tokenize text));
             mret (detokenize (words st))) g
            = Ret (detokenize (word_tokenize text), g')).
  { pose proof (selector_noop (apply_attack NN typos fuel attack level)
                  (word_tokenize text)
                  (perturb_target (word_tokenize text) level) fuel g) as Hsel.
    apply returns_inv in Hsel as (st & g' & Hrun & Hwords & _); [| | done].
    - exists g'. by rewrite bind_unfold, Hrun, Hwords.
    - intros w g1 Hw. apply apply_attack_untouched.
      by apply (proj1 (Forall_forall _ _) Hshort). }
  destruct attack; try apply Hsel.
  destruct (word_tokenize text) as [|w ws] eqn:Htokens.
  - exists g. unfold segmentation. by rewrite Htokens.
  - apply Forall_cons_1 in Hshort as [Hw _]. simpl in Hw. lia.
Qed.

Lemma short_tokens_untouched_witness :
  ∃ g', simple_perturb split_tokenize space_detokenize ∅ ∅ 5
          "a cat is on it" (MethodEnum TRUNCATE) 1 tape0
        = Ret ("a cat is on it", g').
Proof.
  apply (short_tokens_untouched split_tokenize space_detokenize ∅ ∅ 5
           "a cat is on it" TRUNCATE 1 tape0).
  - vm_compute. repeat constructor.
  - split; discriminate.
  - vm_compute. lia.
Defined.

(** X4. At level 0 every recognized method hands the tokens of the text to
    the detokenizer as they are: the word attacks attempt nothing, and the
    segmenter, whose draws are never below 0, merges nothing. *)
Theorem level_0_keeps_tokens
    (word_tokenize : string → list string) (detokenize : list string → string)
    (NN typos : gmap string (list string)) (fuel : nat) (text : string)
    (method : method_arg) (g : rng) :
  recognized method →
  ∃ g', simple_perturb word_tokenize detokenize NN typos fuel text method 0 g
        = Ret (detokenize (word_tokenize text), g').
Proof.
  intros Hmethod.
  destruct (recognized_converts _ Hmethod) as [attack Hconv].
  unfold simple_perturb. rewrite bind_unfold, Hconv. simpl.
  assert (Hsel : ∀ transform,
            (st ← selector_loop transform (perturb_target (word_tokenize text) 0)
                    fuel (selector_init (word_tokenize text));
             mret (detokenize (words st))) g
            = Ret (detokenize (word_tokenize text), g)).
  { intros transform.
    by rewrite bind_unfold, selector_loop_eq, below_target_level_0. }
  destruct attack; try (exists g; apply Hsel).
  pose proof (segmentation_loop_level_0 (word_tokenize text) [] g) as Hseg.
  apply returns_inv in Hseg as (rb & g' & Hrun & ->).
  exists g'. unfold segmentation, segmentation_tokens.
  by rewrite !bind_unfold, Hrun.
Qed.

Lemma level_0_keeps_tokens_witness :
  ∃ g', simple_perturb split_tokenize space_detokenize ∅ ∅ 0
          "I like apples" (MethodStr "segment") 0 tape0
        = Ret ("I like apples", g').
Proof.
  apply (level_0_keeps_tokens split_tokenize space_detokenize ∅ ∅ 0
           "I like apples" (MethodStr "segment") tape0).
  simpl. set_solver.
Defined.

(** ** Further properties of swap *)

Section SwapMore.

(** A shuffle of [i + 1] items makes [i] draws. *)
Lemma shuffle_from_draws {X : Type} (i : nat) :
  ∀ (x : list X) g,
    returns (Rand.shuffle_from i x) g
            (λ x' g', x' ≡ₚ x ∧ g' = Rng (tape g) (cursor g + i)).
Proof.
  induction i as [|i IH]; intros x g; cbn [Rand.shuffle_from].
  - apply post_ret. split; [done|]. destruct g. simpl. f_equal. lia.
  - apply returns_bind, next_returns.
    eapply returns_mono; [| apply IH].
    intros x' g' [-> ->]. split; [apply exchange_Permutation|].
    simpl. f_equal. lia.
Qed.

Lemma shuffle_string_draws (w : string) g :
  returns (shuffle_string w) g
          (λ w' g', PyStr.chars_of w' ≡ₚ PyStr.chars_of w
                    ∧ g' = Rng (tape g) (cursor g + (String.length w - 1))).
Proof.
  unfold shuffle_string, Rand.shuffle. apply returns_bind.
  eapply returns_mono; [| apply shuffle_from_draws].
  intros cs g' [Hcs ->]. apply post_ret.
  by rewrite chars_of_join_chars, length_chars_of.
Qed.

Lemma Permutation_all_equal {X : Type} (c : X) (l l' : list X) :
  Forall (λ x, x = c) l → l' ≡ₚ l → l' = l.
Proof.
  intros Hall Hperm.
  assert (Hall' : Forall (λ x, x = c) l') by (by rewrite Hperm).
  apply Permutation_length in Hperm.
  revert l' Hall' Hperm.
  induction Hall as [|x l -> _ IH]; intros [|y l'] Hall' Hlen;
    simplify_eq/=; [done|].
  apply Forall_cons_1 in Hall' as [-> Hall']. f_equal. by apply IH.
Qed.

(** [word[0]], [word[1:-1]] and [word[-1]] put together give the word. *)
Lemma first_mid_last_chars (word : string) :
  2 ≤ String.length word →
  ∃ first mid l,
    first_mid_last word = Some (first, mid, l)
    ∧ PyStr.chars_of word = first :: PyStr.chars_of mid ++ [l].
Proof.
  intros Hlen. unfold first_mid_last. rewrite <- length_chars_of in Hlen.
  destruct (PyStr.chars_of word) as [|first rest]; [simpl in Hlen; lia|].
  induction rest as [|l rest' _] using rev_ind; [simpl in Hlen; lia|].
  exists first, (PyStr.join_chars rest'), l.
  rewrite last_snoc, length_app. simpl.
  replace (length rest' + 1 - 1) with (length rest') by lia.
  by rewrite take_app_length, chars_of_join_chars.
Qed.

(** The retry loop of an inner swap ends on a word with the same ends and a
    permutation of the interior. *)
Lemma swap_loop_inner fuel word first mid l :
  first_mid_last word = Some (first, mid, l) →
  ∀ perturbed tries g,
    10 ≤ tries + fuel →
    (∃ mid', PyStr.chars_of perturbed = first :: mid' ++ [l]
             ∧ mid' ≡ₚ PyStr.chars_of mid) →
    returns (swap_loop fuel word true perturbed tries) g
            (λ w' _, ∃ mid', PyStr.chars_of w' = first :: mid' ++ [l]
                             ∧ mid' ≡ₚ PyStr.chars_of mid).
Proof.
  intros Hparts.
  induction fuel as [|fuel IH]; intros perturbed tries g Hfuel Hperm;
    rewrite swap_loop_eq; case_decide; try by apply post_ret.
  - destruct (Nat.ltb_spec 10 (S tries)); [by apply post_ret | lia].
  - destruct (Nat.ltb_spec 10 (S tries)); [by apply post_ret |].
    rewrite Hparts. apply returns_bind, returns_bind.
    eapply returns_mono; [| apply shuffle_string_Permutation].
    intros mid' g' Hmid'. apply post_ret. apply IH; [lia|].
    exists (PyStr.chars_of mid'). split; [|done].
    change (String first mid' +:+ String l "")
      with (String first (mid' +:+ String l "")).
    simpl. by rewrite chars_of_append.
Qed.

End SwapMore.

(** X5. An inner swap of a word of at least four characters returns, for
    every outcome of the shuffles, a word with the same first and last
    characters whose interior is a permutation of the interior; a word of
    fewer than four characters is returned as it is, without any draw. *)
Theorem swap_inner_keeps_ends (word : string) (g : rng) :
  (4 ≤ String.length word →
   ∃ first mid l w' mid' g',
     PyStr.chars_of word = first :: mid ++ [l]
     ∧ swap word true g = Ret (w', g')
     ∧ PyStr.chars_of w' = first :: mid' ++ [l]
     ∧ mid' ≡ₚ mid)
  ∧ (String.length word < 4 → swap word true g = Ret (word, g)).
Proof.
  unfold swap. rewrite andb_true_l. split.
  - intros Hlen.
    destruct (first_mid_last_chars word) as (first & mid & l & Hparts & Hchars);
      [lia|].
    destruct (Nat.ltb_spec (String.length word) 3); [lia|].
    destruct (Nat.ltb_spec (String.length word) 4); [lia|]. simpl.
    pose proof (swap_loop_inner 10 word first mid l Hparts word 0 g) as Hloop.
    apply returns_inv in Hloop as (w' & g' & Hrun & mid' & Hw' & Hmid');
      [| lia | by eauto].
    by exists first, (PyStr.chars_of mid), l, w', mid', g'.
  - intros Hshort.
    destruct (Nat.ltb_spec (String.length word) 4); [|lia].
    by rewrite orb_true_r.
Qed.

Lemma swap_inner_keeps_ends_witness :
  (∃ first mid l w' mid' g',
     PyStr.chars_of "hello" = first :: mid ++ [l]
     ∧ swap "hello" true tape0 = Ret (w', g')
     ∧ PyStr.chars_of w' = first :: mid' ++ [l]
     ∧ mid' ≡ₚ mid)
  ∧ swap "cat" true tape0 = Ret ("cat", tape0).
Proof.
  split.
  - apply (proj1 (swap_inner_keeps_ends "hello" tape0)). simpl. lia.
  - apply (proj2 (swap_inner_keeps_ends "cat" tape0)). simpl. lia.
Defined.

Section SwapCap.

(** When no shuffle can change the word, the loop makes the shuffles that
    [tries] still allows and gives the word back. *)
Lemma swap_loop_stuck (word : string) (inner : bool) (n : nat) :
  (∀ g, returns
          ((if inner then
              match first_mid_last word with
              | Some (first, mid, l) =>
                  mid' ← shuffle_string mid;
                  mret (String first mid' +:+ String l "")
              | None => raise IndexError
              end
            else shuffle_string word) : M string) g
          (λ w' g', w' = word ∧ g' = Rng (tape g) (cursor g + n))) →
  ∀ fuel tries g,
    tries ≤ 10 → 10 ≤ tries + fuel →
    swap_loop fuel word inner word tries g
    = Ret (word, Rng (tape g) (cursor g + (10 - tries) * n)).
Proof.
  intros Hshuffle.
  induction fuel as [|fuel IH]; intros tries g Htries Hfuel;
    rewrite swap_loop_eq, decide_True by done.
  - destruct (Nat.ltb_spec 10 (S tries)); [|lia].
    replace (10 - tries) with 0 by lia. destruct g. simpl.
    by rewrite Nat.add_0_r.
  - destruct (Nat.ltb_spec 10 (S tries)).
    + replace (10 - tries) with 0 by lia. destruct g. simpl.
      by rewrite Nat.add_0_r.
    + pose proof (Hshuffle g) as Hone.
      apply returns_inv in Hone as (w' & g' & Hrun & -> & ->).
      rewrite bind_unfold, Hrun, IH by lia. simpl.
      replace (10 - tries) with (S (10 - S tries)) by lia.
      do 3 f_equal. simpl. lia.
Qed.

End SwapCap.

(** X6. The cap on the tries ends the retry loop of [swap] on a word that no
    shuffle can change: a word of at least three equal characters comes back
    from a full swap as it is, and a word of at least four characters with
    an interior of equal characters comes back from an inner swap as it is,
    in both cases after exactly ten shuffles. *)
Theorem swap_stuck_word_returns (word : string) (c : ascii) (g : rng) :
  (3 ≤ String.length word →
   Forall (λ x, x = c) (PyStr.chars_of word) →
   swap word false g
   = Ret (word, Rng (tape g) (cursor g + 10 * (String.length word - 1))))
  ∧ (∀ first mid l,
       4 ≤ String.length word →
       PyStr.chars_of word = first :: mid ++ [l] →
       Forall (λ x, x = c) mid →
       swap word true g
       = Ret (word, Rng (tape g) (cursor g + 10 * (String.length word - 3)))).
Proof.
  split.
  - intros Hlen Hall. unfold swap. rewrite andb_false_l, orb_false_r.
    destruct (Nat.ltb_spec (String.length word) 3); [lia|].
    rewrite (swap_loop_stuck word false (String.length word - 1)); [done | | lia | lia].
    intros g1. eapply returns_mono; [| apply shuffle_string_draws].
    intros w' g' [Hperm ->]. split; [|done].
    apply chars_of_inj. by apply (Permutation_all_equal c).
  - intros first mid l Hlen Hchars Hall. unfold swap.
    destruct (Nat.ltb_spec (String.length word) 3); [lia|].
    destruct (Nat.ltb_spec (String.length word) 4); [lia|]. cbn [orb andb].
    destruct (first_mid_last_chars word) as (first' & mid' & l' & Hparts & Hchars');
      [lia|].
    assert (first' = first ∧ PyStr.chars_of mid' = mid ∧ l' = l) as (-> & Hmid & ->).
    { rewrite Hchars in Hchars'. injection Hchars' as -> Hrest.
      apply app_inj_tail in Hrest as [-> ->]. done. }
    assert (Hmidlen : String.length mid' = String.length word - 2).
    { rewrite <- !length_chars_of, Hchars, Hmid. simpl. rewrite length_app. simpl. lia. }
    rewrite (swap_loop_stuck word true (String.length word - 3)); [done | | lia | lia].
    intros g1. rewrite Hparts. apply returns_bind.
    eapply returns_mono; [| apply shuffle_string_draws].
    intros w' g' [Hperm ->]. apply post_ret. split.
    + apply chars_of_inj. rewrite Hchars.
      change (String first w' +:+ String l "")
        with (String first (w' +:+ String l "")).
      simpl. rewrite chars_of_append. simpl. do 2 f_equal.
      rewrite <- Hmid. apply (Permutation_all_equal c); [by rewrite Hmid | done].
    + f_equal. lia.
Qed.

Lemma swap_stuck_word_returns_witness :
  swap "aaa" false tape0 = Ret ("aaa", Rng (tape tape0) 20)
  ∧ swap "maas" true tape0 = Ret ("maas", Rng (tape tape0) 10).
Proof.
  split.
  - apply (proj1 (swap_stuck_word_returns "aaa" "a" tape0)).
    + simpl. lia.
    + simpl. repeat constructor.
  - apply (proj2 (swap_stuck_word_returns "maas" "a" tape0) "m" ["a"; "a"] "s")%char.
    + simpl. lia.
    + reflexivity.
    + repeat constructor.
Defined.

(** ** Further properties of truncating *)

Section TruncatingFacts.

Lemma truncating_loop_take (minlen : nat) :
  ∀ tmp_cutoff chars,
    truncating_loop chars minlen tmp_cutoff
    = take (length chars - Nat.min tmp_cutoff (length chars - minlen)) chars.
Proof.
  induction tmp_cutoff as [|k IH]; intros chars; cbn [truncating_loop].
  - by rewrite Nat.min_0_l, Nat.sub_0_r, firstn_all.
  - destruct (Nat.ltb_spec minlen (length chars)) as [Hlong|Hshort].
    + rewrite IH, take_take, length_take. f_equal. lia.
    + replace (length chars - minlen) with 0 by lia.
      by rewrite Nat.sub_0_r, firstn_all.
Qed.

End TruncatingFacts.

(** X7. [truncating] returns a prefix of the word: it cuts [cutoff]
    characters off the end but stops at [minlen] characters, so that the
    result has [len - min(cutoff, len - minlen)] characters, and a word of at
    most [minlen] characters is returned whole.  With the defaults, a word of
    more than three characters loses its last character and no other word
    changes. *)
Theorem truncating_prefix (word : string) (minlen cutoff : nat) :
  let len := String.length word in
  PyStr.chars_of (truncating_with word minlen cutoff)
  = take (len - Nat.min cutoff (len - minlen)) (PyStr.chars_of word)
  ∧ String.length (truncating_with word minlen cutoff)
    = len - Nat.min cutoff (len - minlen)
  ∧ (len ≤ minlen → truncating_with word minlen cutoff = word)
  ∧ PyStr.chars_of (truncating word)
    = if 3 <? len then take (len - 1) (PyStr.chars_of word)
      else PyStr.chars_of word.
Proof.
  intros len.
  assert (Hchars : ∀ m c,
            PyStr.chars_of (truncating_with word m c)
            = take (len - Nat.min c (len - m)) (PyStr.chars_of word)).
  { intros m c. unfold truncating_with.
    by rewrite chars_of_join_chars, truncating_loop_take, length_chars_of. }
  split; [apply Hchars|]. split; [|split].
  - rewrite <- length_chars_of, Hchars, length_take, length_chars_of.
    fold len. lia.
  - intros Hshort. apply chars_of_inj. rewrite Hchars.
    replace (len - minlen) with 0 by lia.
    rewrite Nat.min_0_r, Nat.sub_0_r. apply take_ge.
    by rewrite length_chars_of.
  - unfold truncating. rewrite Hchars.
    destruct (Nat.ltb_spec 3 len) as [Hlong|Hshort].
    + f_equal. lia.
    + replace (len - 3) with 0 by lia.
      rewrite Nat.min_0_r, Nat.sub_0_r. apply take_ge.
      by rewrite length_chars_of.
Qed.

Lemma truncating_prefix_witness :
  truncating_with "cat" 3 1 = "cat".
Proof.
  apply (truncating_prefix "cat" 3 1). simpl. lia.
Defined.

(** ** Further properties of disemvoweling *)

Section DisemvowelMore.

Lemma disemvoweling_cases (w : string) :
  disemvoweling w = w
  ∨ (3 ≤ String.length w ∧ ¬ all_vowels w ∧ disemvoweling w = remove_vowels w).
Proof.
  unfold disemvoweling, disemvoweling_with.
  destruct (Nat.ltb_spec (String.length w) 3); [by left|].
  destruct (Nat.eqb_spec (count_vowels w vocals_default) (String.length w))
    as [Hall|Hsome]; [by left | right].
  rewrite count_vowels_all in Hsome. by rewrite re_sub_vocals.
Qed.

Lemma remove_vowels_no_vowel (w : string) :
  filter (λ c, is_vowel c = true) (PyStr.chars_of (remove_vowels w)) = [].
Proof.
  unfold remove_vowels. rewrite chars_of_join_chars.
  induction (PyStr.chars_of w) as [|c cs IH]; [done|].
  rewrite filter_cons. destruct (is_vowel c) eqn:Hc; simpl; [done|].
  rewrite filter_cons. rewrite Hc. simpl. done.
Qed.

Lemma remove_vowels_idemp (w : string) :
  remove_vowels (remove_vowels w) = remove_vowels w.
Proof.
  unfold remove_vowels at 1.
  rewrite filter_Forall_id; [apply join_chars_chars_of|].
  unfold remove_vowels. rewrite chars_of_join_chars.
  apply Forall_forall. by intros c [Hc _]%list_elem_of_filter.
Qed.

Lemma remove_vowels_nonempty (w : string) :
  ¬ all_vowels w → remove_vowels w ≠ "".
Proof.
  intros Hsome Hempty.
  apply not_Forall_Exists, Exists_exists in Hsome as (c & Hin & Hc); [|apply _].
  apply not_true_is_false in Hc.
  assert (Hc' : c ∈ PyStr.chars_of (remove_vowels w)).
  { unfold remove_vowels. rewrite chars_of_join_chars.
    by apply list_elem_of_filter. }
  rewrite Hempty in Hc'. by apply elem_of_nil in Hc'.
Qed.

End DisemvowelMore.

(** X8. [disemvoweling] never empties a word of ASCII characters: the result
    of a non-empty ASCII word is non-empty, and it is no longer than the
    word.  (Outside ASCII the two vowel tests of the code part ways, and a
    word such as three capital dotted I is emptied.) *)
Theorem disemvoweling_never_empty (w : string) :
  isascii w →
  w ≠ "" →
  disemvoweling w ≠ ""
  ∧ String.length (disemvoweling w) ≤ String.length w.
Proof.
  intros _ Hw.
  destruct (disemvoweling_cases w) as [->|(_ & Hsome & ->)]; [done|].
  split; [by apply remove_vowels_nonempty|].
  unfold remove_vowels.
  rewrite <- !length_chars_of, chars_of_join_chars. apply length_filter.
Qed.

Lemma disemvoweling_never_empty_witness :
  disemvoweling "eat" ≠ ""
  ∧ String.length (disemvoweling "eat") ≤ String.length "eat".
Proof.
  apply (disemvoweling_never_empty "eat").
  - unfold isascii. simpl. repeat constructor.
  - discriminate.
Defined.

(** X9. [disemvoweling] is idempotent: a second pass changes nothing. *)
Theorem disemvoweling_idempotent (w : string) :
  disemvoweling (disemvoweling w) = disemvoweling w.
Proof.
  destruct (disemvoweling_cases w) as [Hw|(_ & Hsome & Hw)]; [by rewrite !Hw|].
  rewrite Hw. unfold disemvoweling, disemvoweling_with.
  destruct (Nat.ltb_spec (String.length (remove_vowels w)) 3); [done|].
  rewrite count_vowels_filter, remove_vowels_no_vowel. cbn [length].
  destruct (Nat.eqb_spec 0 (String.length (remove_vowels w))); [lia|].
  by rewrite re_sub_vocals, remove_vowels_idemp.
Qed.

(** ** Further properties of intruders *)

Section IntrudersMore.

Lemma list_insert_at_app {X : Type} (done rest : list X) (x : X) :
  list_insert_at (length done) x (done ++ rest) = done ++ x :: rest.
Proof.
  unfold list_insert_at. by rewrite take_app_length, drop_app_length.
Qed.

Lemma insert_gaps_all_true (punct : ascii) (cs : list ascii) :
  length (insert_gaps (replicate (length cs) true) punct cs) = 2 * length cs.
Proof. induction cs as [|c cs IH]; simpl; [done | rewrite IH; lia]. Qed.

(** The scan, started behind the characters [done] with [rest] still ahead of
    it, puts the punctuation in front of some of the characters of [rest] and
    changes nothing else; at levels from 1 up it does so in front of each. *)
Lemma intruders_scan_shape level punct rest :
  ∀ done fuel g,
    length rest ≤ fuel →
    returns (intruders_scan fuel level punct (done ++ rest) (length done)) g
      (λ chars' _, ∃ mask,
           length mask = length rest
           ∧ chars' = done ++ insert_gaps mask punct rest
           ∧ ((1 <= level)%Q → mask = replicate (length rest) true)).
Proof.
  induction rest as [|c rest IH]; intros done fuel g Hfuel;
    rewrite intruders_scan_eq, length_app.
  - destruct (Nat.ltb_spec (length done) (length done + length (@nil ascii)));
      [simpl in *; lia|].
    apply post_ret. by exists [].
  - destruct (Nat.ltb_spec (length done) (length done + length (c :: rest)));
      [|simpl in *; lia].
    destruct fuel as [|fuel]; [simpl in Hfuel; lia|].
    apply returns_bind.
    eapply returns_mono; [| apply unit_interval_returns].
    intros u g1 [_ Hu]. simpl in Hu.
    destruct (Qltb u level) eqn:Hdraw.
    + rewrite list_insert_at_app.
      replace (length done + 1 + 1) with (length (done ++ [punct; c]))
        by (rewrite length_app; simpl; lia).
      replace (done ++ punct :: c :: rest) with ((done ++ [punct; c]) ++ rest)
        by (by rewrite <- app_assoc).
      eapply returns_mono; [| apply IH; simpl in Hfuel; lia].
      intros chars' g2 (mask & Hlen & -> & Hall).
      exists (true :: mask). simpl. rewrite Hlen, <- app_assoc.
      repeat split; try done. intros Hlevel. by rewrite Hall.
    + replace (length done + 1) with (length (done ++ [c]))
        by (rewrite length_app; simpl; lia).
      replace (done ++ c :: rest) with ((done ++ [c]) ++ rest)
        by (by rewrite <- app_assoc).
      eapply returns_mono; [| apply IH; simpl in Hfuel; lia].
      intros chars' g2 (mask & Hlen & -> & Hall).
      exists (false :: mask). simpl. rewrite Hlen, <- app_assoc.
      repeat split; try done. intros Hlevel. exfalso.
      apply Qltb_ge in Hdraw.
      apply (Qlt_irrefl u). eapply Qlt_le_trans; [exact Hu|].
      by eapply Qle_trans.
Qed.

(** When the retry loop returns, it returns the outcome of a scan that made
    an insertion. *)
Lemma intruders_loop_shape word level punct c0 tail fuel :
  PyStr.chars_of word = c0 :: tail →
  ∀ g w' g',
    intruders_loop fuel word level punct (PyStr.chars_of word) word g
    = Ret (w', g') →
    ∃ mask, length mask = length tail
            ∧ PyStr.chars_of w' = c0 :: insert_gaps mask punct tail
            ∧ w' ≠ word.
Proof.
  intros Hchars.
  induction fuel as [|fuel IH]; intros g w' g';
    rewrite intruders_loop_eq, decide_True by done; [done|].
  intros Hrun. apply bind_ret_inv in Hrun as (chars' & g1 & Hscan & Hrun).
  pose proof (intruders_scan_shape level punct tail [c0]
                (length (PyStr.chars_of word)) g) as Hshape.
  rewrite Hchars in Hshape. simpl in Hshape.
  apply returns_inv in Hshape as (chars'' & g1' & Hscan' & mask & Hlen & Hchars' & _);
    [|lia].
  rewrite Hchars in Hscan. simpl in Hscan. rewrite Hscan in Hscan'.
  injection Hscan' as <- <-.
  destruct (decide (PyStr.join_chars chars' = word)) as [Hsame|Hnew].
  - assert (chars' = PyStr.chars_of word) as ->
      by (by rewrite <- Hsame, chars_of_join_chars).
    rewrite Hsame in Hrun. by apply (IH g1 w' g').
  - rewrite intruders_loop_eq, decide_False in Hrun by done.
    injection Hrun as <- _. exists mask.
    by rewrite chars_of_join_chars.
Qed.

End IntrudersMore.

(** X10. [intruders] leaves a word alone when the word is found in
    [string.punctuation] or has fewer than two characters, and puts one
    punctuation character between the two characters of any other word of
    length two; neither case depends on the level or on fuel. *)
Theorem intruders_short_words (fuel : nat) (word : string) (level : Q) (g : rng) :
  (PyStr.contains PyStr.punctuation word = true ∨ String.length word < 2 →
   ∃ g', intruders fuel word level g = Ret (word, g'))
  ∧ (PyStr.contains PyStr.punctuation word = false → String.length word = 2 →
     ∃ c0 c1 punct g',
       PyStr.chars_of word = [c0; c1]
       ∧ punct ∈ PyStr.chars_of PyStr.punctuation
       ∧ intruders fuel word level g = Ret (PyStr.join_chars [c0; punct; c1], g')).
Proof.
  pose proof (choice_returns (PyStr.chars_of PyStr.punctuation) g) as Hc.
  apply returns_inv in Hc as (punct & g1 & Hrun & Hpunct); [|done].
  unfold intruders. rewrite bind_unfold, Hrun. split.
  - intros [->|Hshort]; [by exists g1|].
    destruct (Nat.ltb_spec (String.length word) 2); [|lia].
    rewrite orb_true_r. by exists g1.
  - intros -> Hlen.
    destruct (Nat.ltb_spec (String.length word) 2); [lia|].
    destruct (Nat.eqb_spec (String.length word) 2); [|lia]. simpl.
    rewrite <- length_chars_of in Hlen.
    destruct (PyStr.chars_of word) as [|c0 [|c1 [|]]]; simplify_eq/=.
    by exists c0, c1, punct, g1.
Qed.

Lemma intruders_short_words_witness :
  (∃ g', intruders 0 "I" (1 # 2) tape0 = Ret ("I", g'))
  ∧ ∃ c0 c1 punct g',
      PyStr.chars_of "is" = [c0; c1]
      ∧ punct ∈ PyStr.chars_of PyStr.punctuation
      ∧ intruders 0 "is" (1 # 2) tape0 = Ret (PyStr.join_chars [c0; punct; c1], g').
Proof.
  split.
  - apply (proj1 (intruders_short_words 0 "I" (1 # 2) tape0)).
    right. simpl. lia.
  - by apply (proj2 (intruders_short_words 0 "is" (1 # 2) tape0)).
Defined.

(** X11. Whenever [intruders] returns on a word of at least three characters
    that is not found in [string.punctuation], the result differs from the
    word and is the word with one and the same punctuation character put in
    front of some of its characters other than the first: nothing is
    removed, reordered or put before the first or after the last
    character. *)
Theorem intruders_inserts_punctuation
    (fuel : nat) (word : string) (level : Q) (g : rng) (w' : string) (g' : rng) :
  3 ≤ String.length word →
  PyStr.contains PyStr.punctuation word = false →
  intruders fuel word level g = Ret (w', g') →
  ∃ punct c0 tail mask,
    punct ∈ PyStr.chars_of PyStr.punctuation
    ∧ PyStr.chars_of word = c0 :: tail
    ∧ length mask = length tail
    ∧ PyStr.chars_of w' = c0 :: insert_gaps mask punct tail
    ∧ w' ≠ word.
Proof.
  intros Hlen Hpunct Hrun. unfold intruders in Hrun.
  apply bind_ret_inv in Hrun as (punct & g1 & Hchoice & Hrun).
  pose proof (choice_returns (PyStr.chars_of PyStr.punctuation) g) as Hc.
  apply returns_inv in Hc as (punct' & g1' & Hchoice' & Hin); [|done].
  rewrite Hchoice in Hchoice'. injection Hchoice' as <- <-.
  rewrite Hpunct in Hrun.
  destruct (Nat.ltb_spec (String.length word) 2); [lia|].
  destruct (Nat.eqb_spec (String.length word) 2); [lia|]. simpl in Hrun.
  destruct (PyStr.chars_of word) as [|c0 tail] eqn:Hchars.
  { rewrite <- length_chars_of, Hchars in Hlen. simpl in Hlen. lia. }
  rewrite <- Hchars in Hrun.
  destruct (intruders_loop_shape word level punct c0 tail fuel Hchars _ _ _ Hrun)
    as (mask & Hmask & Hw' & Hnew).
  by exists punct, c0, tail, mask.
Qed.

Lemma intruders_inserts_punctuation_witness :
  ∃ punct c0 tail mask,
    punct ∈ PyStr.chars_of PyStr.punctuation
    ∧ PyStr.chars_of "hello" = c0 :: tail
    ∧ length mask = length tail
    ∧ PyStr.chars_of "h$e$l$l$o" = c0 :: insert_gaps mask punct tail
    ∧ "h$e$l$l$o" ≠ "hello".
Proof.
  assert (Hrun : intruders 5 "hello" (1 # 2) tape0
                 = Ret ("h$e$l$l$o", Rng (tape tape0) 9))
    by (vm_compute; reflexivity).
  apply (intruders_inserts_punctuation 5 "hello" (1 # 2) tape0
           "h$e$l$l$o" (Rng (tape tape0) 9));
    [simpl; lia | reflexivity | exact Hrun].
Defined.

(** X12. At a level of 1 or more every gap is filled at the first scan: on a
    word of at least three characters that is not found in
    [string.punctuation], [intruders] returns as soon as it has fuel for one
    round, with the punctuation character in front of every character but
    the first. *)
Theorem intruders_level_1_fills_gaps
    (fuel : nat) (word : string) (level : Q) (g : rng) :
  (1 <= level)%Q →
  3 ≤ String.length word →
  PyStr.contains PyStr.punctuation word = false →
  1 ≤ fuel →
  ∃ punct c0 tail g',
    punct ∈ PyStr.chars_of PyStr.punctuation
    ∧ PyStr.chars_of word = c0 :: tail
    ∧ intruders fuel word level g
      = Ret (PyStr.join_chars
               (c0 :: insert_gaps (replicate (length tail) true) punct tail), g').
Proof.
  intros Hlevel Hlen Hpunct Hfuel.
  pose proof (choice_returns (PyStr.chars_of PyStr.punctuation) g) as Hc.
  apply returns_inv in Hc as (punct & g1 & Hchoice & Hin); [|done].
  destruct (PyStr.chars_of word) as [|c0 tail] eqn:Hchars.
  { rewrite <- length_chars_of, Hchars in Hlen. simpl in Hlen. lia. }
  pose proof (intruders_scan_shape level punct tail [c0] (S (length tail)) g1)
    as Hshape.
  apply returns_inv in Hshape as (chars' & g2 & Hscan & mask & _ & -> & Hall);
    [|lia].
  rewrite (Hall Hlevel) in Hscan. clear Hall.
  exists punct, c0, tail, g2. split; [done|]. split; [done|].
  unfold intruders. rewrite bind_unfold, Hchoice, Hpunct.
  destruct (Nat.ltb_spec (String.length word) 2); [lia|].
  destruct (Nat.eqb_spec (String.length word) 2); [lia|]. cbn [orb].
  destruct fuel as [|fuel]; [lia|].
  rewrite intruders_loop_eq, decide_True by done.
  rewrite Hchars.
  assert (Hscan' : intruders_scan (length (c0 :: tail)) level punct (c0 :: tail) 1 g1
                   = Ret (c0 :: insert_gaps (replicate (length tail) true) punct tail, g2))
    by exact Hscan.
  rewrite bind_unfold, Hscan'.
  rewrite intruders_loop_eq, decide_False; [done|].
  intros Hsame. apply (f_equal String.length) in Hsame.
  rewrite <- !length_chars_of, chars_of_join_chars, Hchars in Hsame.
  simpl in Hsame. rewrite insert_gaps_all_true in Hsame.
  rewrite <- length_chars_of, Hchars in Hlen. simpl in Hlen. lia.
Qed.

Lemma intruders_level_1_fills_gaps_witness :
  ∃ punct c0 tail g',
    punct ∈ PyStr.chars_of PyStr.punctuation
    ∧ PyStr.chars_of "cat" = c0 :: tail
    ∧ intruders 1 "cat" 1 tape0
      = Ret (PyStr.join_chars
               (c0 :: insert_gaps (replicate (length tail) true) punct tail), g').
Proof.
  apply (intruders_level_1_fills_gaps 1 "cat" 1 tape0).
  - discriminate.
  - simpl. lia.
  - reflexivity.
  - lia.
Defined.

(** ** Further properties of the facade and of the method names *)

(** X13. [fromString] returns an attack exactly for the eight method names,
    without touching the random source, raises the unknown-method error for
    every other string, and gives different attacks for different names. *)
Theorem fromString_names (s1 s2 : string) (g : rng) :
  (recognized (MethodStr s1) ↔ ∃ attack, fromString s1 g = Ret (attack, g))
  ∧ (¬ recognized (MethodStr s1) →
     fromString s1 g = Raise (UnknownAttack s1))
  ∧ (∀ attack, fromString s1 g = Ret (attack, g) →
               fromString s2 g = Ret (attack, g) → s1 = s2).
Proof.
  assert (Hno : ¬ recognized (MethodStr s1) →
                fromString s1 g = Raise (UnknownAttack s1)).
  { simpl. rewrite !not_elem_of_cons. intros (?&?&?&?&?&?&?&?&_).
    unfold fromString. by rewrite !decide_False by done. }
  split; [split|split; [done|]].
  - intros Hrec. destruct (recognized_converts _ Hrec) as [attack Hconv]. eauto.
  - intros [attack Hrun].
    destruct (decide (recognized (MethodStr s1))) as [|Hnot]; [done|].
    rewrite (Hno Hnot) in Hrun. discriminate Hrun.
  - intros attack. unfold fromString.
    repeat case_decide; subst; intros [= <-]; try discriminate; done.
Qed.

Lemma fromString_names_witness :
  fromString "reverse" tape0 = Raise (UnknownAttack "reverse").
Proof.
  apply (fromString_names "reverse" "" tape0). simpl.
  rewrite !not_elem_of_cons. repeat split; try discriminate.
  apply not_elem_of_nil.
Defined.

(** X14. An unknown method name is reported before the level is looked at:
    [simple_perturb] raises the unknown-method error for it at every level,
    valid or not. *)
Theorem unknown_method_first
    (word_tokenize : string → list string) (detokenize : list string → string)
    (NN typos : gmap string (list string)) (fuel : nat) (text : string)
    (as_string : string) (level : Q) (g : rng) :
  ¬ recognized (MethodStr as_string) →
  simple_perturb word_tokenize detokenize NN typos fuel text
    (MethodStr as_string) level g
  = Raise (UnknownAttack as_string).
Proof.
  simpl. rewrite !not_elem_of_cons. intros (?&?&?&?&?&?&?&?&_).
  unfold simple_perturb, fromString. rewrite bind_unfold.
  by rewrite !decide_False by done.
Qed.

Lemma unknown_method_first_witness :
  simple_perturb split_tokenize space_detokenize ∅ ∅ 5 "I like apples"
    (MethodStr "reverse") (3 # 2) tape0
  = Raise (UnknownAttack "reverse").
Proof.
  apply (unknown_method_first split_tokenize space_detokenize ∅ ∅ 5
           "I like apples" "reverse" (3 # 2) tape0).
  simpl. rewrite !not_elem_of_cons. repeat split; try discriminate.
  apply not_elem_of_nil.
Defined.

(** ** Further properties of the table transforms *)

Section TableMore.

Lemma join_single_chars (cs : list ascii) :
  PyStr.join ((λ c, String c "") <$> cs) = PyStr.join_chars cs.
Proof.
  induction cs as [|c cs IH]; [done|].
  rewrite fmap_cons. unfold PyStr.join in *. cbn [foldr]. by rewrite IH.
Qed.

(** What [key] returns once the gate is passed. *)
Lemma key_apply_shape NN word g w' g' :
  key_apply NN word g = Ret (w', g') →
  w' = word
  ∨ ∃ i c neighbours neighbour,
      PyStr.chars_of word !! i = Some c
      ∧ is_Some (NN !! String c "")
      ∧ NN !! PyStr.lower (String c "") = Some neighbours
      ∧ neighbour ∈ neighbours
      ∧ w' = PyStr.join_chars (take i (PyStr.chars_of word)) +:+ neighbour
             +:+ PyStr.join_chars (drop (S i) (PyStr.chars_of word)).
Proof.
  unfold key_apply. intros Hrun.
  apply bind_ret_inv in Hrun as (i & g1 & _ & Hrun).
  destruct (PyStr.singletons word !! Z.to_nat i) as [char|] eqn:Hchar;
    [|discriminate].
  unfold PyStr.singletons in Hchar. rewrite list_lookup_fmap in Hchar.
  destruct (PyStr.chars_of word !! Z.to_nat i) as [c|] eqn:Hc; [|discriminate].
  injection Hchar as <-.
  case_decide as Hfound.
  - right.
    destruct (NN !! PyStr.lower (String c "")) as [neighbours|] eqn:Hlow;
      [|discriminate].
    apply bind_ret_inv in Hrun as (k & g2 & _ & Hrun).
    destruct (neighbours !! Z.to_nat k) as [neighbour|] eqn:Hk; [|discriminate].
    injection Hrun as <- _.
    exists (Z.to_nat i), c, neighbours, neighbour.
    repeat split; try done; [by eapply list_elem_of_lookup_2|].
    pose proof (lookup_lt_Some _ _ _ Hc) as Hlt.
    unfold PyStr.singletons.
    rewrite insert_take_drop by (by rewrite length_fmap).
    rewrite join_app. simpl.
    by rewrite <- fmap_take, <- fmap_drop, !join_single_chars.
  - left. injection Hrun as <- _. apply join_singletons.
Qed.

End TableMore.

(** X15. [key] changes at most one position: whatever the table and the
    probability, a returned word is the word itself or the word with one
    character [c] replaced by an entry of the list that the table gives for
    the lower case of [c], and this only for a [c] that is itself a key of
    the table. *)
Theorem key_replaces_one_character
    (NN : gmap string (list string)) (word : string) (probability : Q)
    (g : rng) (w' : string) (g' : rng) :
  key NN word probability g = Ret (w', g') →
  w' = word
  ∨ ∃ i c neighbours neighbour,
      PyStr.chars_of word !! i = Some c
      ∧ is_Some (NN !! String c "")
      ∧ NN !! PyStr.lower (String c "") = Some neighbours
      ∧ neighbour ∈ neighbours
      ∧ w' = PyStr.join_chars (take i (PyStr.chars_of word)) +:+ neighbour
             +:+ PyStr.join_chars (drop (S i) (PyStr.chars_of word)).
Proof.
  unfold key. intros Hrun.
  apply bind_ret_inv in Hrun as (r & g1 & _ & Hrun).
  destruct (Qltb probability r).
  - left. by injection Hrun as <- _.
  - by eapply key_apply_shape.
Qed.

Lemma key_replaces_one_character_witness :
  "cwt" = "cat"
  ∨ ∃ i c neighbours neighbour,
      PyStr.chars_of "cat" !! i = Some c
      ∧ is_Some (keyboard_sample !! String c "")
      ∧ keyboard_sample !! PyStr.lower (String c "") = Some neighbours
      ∧ neighbour ∈ neighbours
      ∧ "cwt" = PyStr.join_chars (take i (PyStr.chars_of "cat")) +:+ neighbour
                +:+ PyStr.join_chars (drop (S i) (PyStr.chars_of "cat")).
Proof.
  assert (Hrun : key keyboard_sample "cat" 1 (Rng (λ n, n + 2) 0)
                 = Ret ("cwt", Rng (λ n, n + 2) 4))
    by (vm_compute; reflexivity).
  exact (key_replaces_one_character _ _ _ _ _ _ Hrun).
Defined.

(** X16. [key] does not fail on a non-empty word when every list of the
    table is non-empty and the lower case of every key is a key; on the empty
    word, once the gate is passed, it fails with the [ValueError] of an empty
    range. *)
Theorem key_failures
    (NN : gmap string (list string)) (word : string) (probability : Q) (g : rng) :
  (word ≠ "" →
   (∀ k neighbours, NN !! k = Some neighbours →
                    neighbours ≠ [] ∧ is_Some (NN !! PyStr.lower k)) →
   ∃ w' g', key NN word probability g = Ret (w', g'))
  ∧ (word = "" → (1 <= probability)%Q →
     ∃ args, key NN word probability g = Raise (ValueError args)).
Proof.
  split.
  - intros Hword HNN.
    enough (Hret : returns (key NN word probability) g (λ _ _, True)).
    { apply returns_inv in Hret as (w' & g' & Hrun & _). eauto. }
    unfold key. apply returns_bind.
    eapply returns_mono; [| apply unit_interval_returns].
    intros r g1 _. simpl. destruct (Qltb probability r); [by apply post_ret|].
    unfold key_apply. apply returns_bind.
    assert (Hne : PyStr.singletons word ≠ []).
    { destruct word; [done | discriminate]. }
    eapply returns_mono; [| apply (randint_index _ g1 Hne)].
    intros i g2 [char Hchar]. simpl. rewrite Hchar.
    case_decide as Hfound; [|by apply post_ret].
    destruct Hfound as [entries Hentries].
    destruct (HNN _ _ Hentries) as [_ [neighbours Hlow]].
    destruct (HNN _ _ Hlow) as [Hsome _]. rewrite Hlow.
    apply returns_bind.
    eapply returns_mono; [| apply (randint_index _ g2 Hsome)].
    intros k g3 [neighbour Hk]. simpl. rewrite Hk. by apply post_ret.
  - intros -> Hprob.
    pose proof (unit_interval_returns g) as Hdraw.
    apply returns_inv in Hdraw as (r & g1 & Hrun & _ & Hr).
    exists ["empty range for randrange()"].
    unfold key. rewrite bind_unfold.
    change Rand.random with Rand.unit_interval. rewrite Hrun.
    assert (Hgate : Qltb probability r = false).
    { apply Qltb_ge. apply Qlt_le_weak. by eapply Qlt_le_trans. }
    by rewrite Hgate.
Qed.

Lemma key_failures_witness :
  (∃ w' g', key keyboard_sample "cat" 1 tape0 = Ret (w', g'))
  ∧ ∃ args, key keyboard_sample "" 1 tape0 = Raise (ValueError args).
Proof.
  split.
  - apply (proj1 (key_failures keyboard_sample "cat" 1 tape0)); [discriminate|].
    unfold keyboard_sample.
    intros k neighbours [<- <-]%lookup_singleton_Some.
    split; [discriminate | by eexists].
  - apply (proj2 (key_failures keyboard_sample "" 1 tape0)); [done | discriminate].
Defined.

(** X17. [natural] gives back a word that is not in the table; for a word in
    the table it returns the word (when the gate is not passed) or one of the
    variants listed for it; it fails only on a word whose list of variants is
    empty, with the [ValueError] of an empty range. *)
Theorem natural_outcomes
    (typos : gmap string (list string)) (word : string) (precentage : Q) (g : rng) :
  (typos !! word = None → ∃ g', natural typos word precentage g = Ret (word, g'))
  ∧ (∀ w' g', natural typos word precentage g = Ret (w', g') →
              w' = word
              ∨ ∃ variants, typos !! word = Some variants ∧ w' ∈ variants)
  ∧ (∀ e, natural typos word precentage g = Raise e →
          typos !! word = Some [] ∧ ∃ args, e = ValueError args)
  ∧ natural typos word precentage g ≠ Diverge.
Proof.
  pose proof (unit_interval_returns g) as Hdraw.
  apply returns_inv in Hdraw as (r & g1 & Hrun & _).
  unfold natural. rewrite bind_unfold.
  change Rand.random with Rand.unit_interval. rewrite Hrun.
  destruct (Qltb precentage r).
  { split; [by eauto|]. split; [by intros w' g' [= <- _]; left|].
    split; [intros e Hraise|]; discriminate. }
  unfold natural_apply.
  destruct (typos !! word) as [variants|] eqn:Hword.
  - split; [discriminate|]. destruct variants as [|v variants].
    + split; [intros w' g' Hret; discriminate Hret|].
      split; [|discriminate]. intros e [= <-]. eauto.
    + pose proof (randint_index (v :: variants) g1) as Hk.
      apply returns_inv in Hk as (k & g2 & Hpick & [variant Hvariant]); [|done].
      rewrite bind_unfold, Hpick, Hvariant.
      split; [|split; [intros e Hraise|]; discriminate].
      intros w' g' [= <- _]. right. exists (v :: variants). split; [done|].
      by eapply list_elem_of_lookup_2.
  - split; [by eauto|]. split; [by intros w' g' [= <- _]; left|].
    split; [intros e Hraise|]; discriminate.
Qed.

Lemma natural_outcomes_witness :
  ∃ g', natural typos_sample "cat" 1 tape0 = Ret ("cat", g').
Proof.
  apply (natural_outcomes typos_sample "cat" 1 tape0). reflexivity.
Defined.

(** ** Further properties of the segmenter *)

Section SegmenterMore.

(** At a probability of 1 or more every token is deferred. *)
Lemma segmentation_loop_level_1 probability tokens :
  (1 <= probability)%Q →
  ∀ result buffer g,
    returns (segmentation_loop probability tokens result buffer) g
            (λ rb _, rb = (result, buffer +:+ PyStr.join tokens)).
Proof.
  intros Hprob.
  induction tokens as [|word rest IH]; intros result buffer g;
    cbn [segmentation_loop].
  - apply post_ret. simpl. by rewrite append_empty_r.
  - apply returns_bind.
    eapply returns_mono; [| apply unit_interval_returns].
    intros u g1 [_ Hu]. simpl in Hu.
    assert (Hmerge : Qltb u probability = true).
    { apply Qltb_lt. by eapply Qlt_le_trans. }
    simpl. rewrite Hmerge.
    eapply returns_mono; [| apply IH].
    intros rb g2 ->. by rewrite append_assoc.
Qed.

(** The scan never has more segments in hand than tokens behind it. *)
Lemma segmentation_loop_count probability tokens :
  ∀ result buffer g,
    returns (segmentation_loop probability tokens result buffer) g
            (λ rb _, segments rb.1 rb.2
                     ≤ length result + 1 + length tokens
                     ∧ (buffer = "" → segments rb.1 rb.2
                                      ≤ length result + length tokens)).
Proof.
  induction tokens as [|word rest IH]; intros result buffer g;
    cbn [segmentation_loop].
  - apply post_ret. unfold segments. simpl.
    split; [case_decide; lia|]. intros ->. rewrite decide_False by auto. lia.
  - apply returns_bind.
    eapply returns_mono; [| apply unit_interval_returns].
    intros u g1 _. simpl. destruct (Qltb u probability).
    + eapply returns_mono; [| apply IH].
      intros [r b] g2 [Hany _]. simpl in *. split; lia.
    + eapply returns_mono; [| apply IH].
      intros [r b] g2 [_ Hempty]. specialize (Hempty eq_refl).
      rewrite length_app in Hempty. simpl in *. split; lia.
Qed.

End SegmenterMore.

(** X18. At a merge probability of 1 or more the segmenter fuses all the
    tokens into one: its output is the single token made of all the input
    tokens in order, or nothing at all when that token would be empty. *)
Theorem segmentation_fuses_all
    (tokens : list string) (probability : Q) (g : rng) :
  (1 <= probability)%Q →
  ∃ g', segmentation_tokens tokens probability g
        = Ret (if decide (PyStr.join tokens ≠ "") then [PyStr.join tokens] else [],
               g').
Proof.
  intros Hprob.
  pose proof (segmentation_loop_level_1 probability tokens Hprob [] "" g) as Hloop.
  apply returns_inv in Hloop as (rb & g' & Hrun & ->).
  exists g'. unfold segmentation_tokens. by rewrite bind_unfold, Hrun.
Qed.

Lemma segmentation_fuses_all_witness :
  ∃ g', segmentation_tokens ["I"; "like"; "apples"] 1 tape0
        = Ret (if decide (PyStr.join ["I"; "like"; "apples"] ≠ "")
               then [PyStr.join ["I"; "like"; "apples"]] else [],
               g').
Proof.
  apply (segmentation_fuses_all ["I"; "like"; "apples"] 1 tape0). discriminate.
Defined.

(** X19. The segmenter never makes tokens: for every probability and every
    outcome of the draws, it returns at most as many tokens as it was
    given. *)
Theorem segmentation_no_more_tokens
    (tokens : list string) (probability : Q) (g : rng) :
  ∃ out g', segmentation_tokens tokens probability g = Ret (out, g')
            ∧ length out ≤ length tokens.
Proof.
  apply returns_inv. unfold segmentation_tokens. apply returns_bind.
  eapply returns_mono; [| apply segmentation_loop_count].
  intros [result buffer] g' [_ Hcount]. specialize (Hcount eq_refl).
  apply post_ret. unfold segments in Hcount. simpl in *.
  case_decide; [rewrite length_app; simpl; lia | lia].
Qed.

(** ** Loading the tables *)

Section LoaderFacts.

Lemma split_go_tokens cs :
  ∀ cur, Forall (λ c, isspace_char c = false) cur →
         Forall token_ok (split_go cur cs).
Proof.
  assert (Hflush : ∀ cur, cur ≠ [] → Forall (λ c, isspace_char c = false) cur →
                          token_ok (PyStr.join_chars cur)).
  { intros cur Hne Hcur. split; [by destruct cur|].
    by rewrite chars_of_join_chars. }
  induction cs as [|c cs IH]; intros cur Hcur; cbn [split_go].
  - destruct cur as [|c0 cur]; [done|]. apply Forall_singleton. by apply Hflush.
  - destruct (isspace_char c) eqn:Hc.
    + destruct cur as [|c0 cur]; [by apply IH|].
      apply Forall_cons. split; [by apply Hflush | by apply IH].
    + apply IH. apply Forall_app. split; [done|]. by apply Forall_singleton.
Qed.

Lemma split_go_nil cs :
  ∀ cur, split_go cur cs = [] ↔ cur = [] ∧ Forall (λ c, isspace_char c = true) cs.
Proof.
  induction cs as [|c cs IH]; intros cur; cbn [split_go].
  - destruct cur; [by split | split; [done | by intros [? _]]].
  - destruct (isspace_char c) eqn:Hc.
    + destruct cur as [|c0 cur].
      * rewrite IH. split; intros [_ Hall]; (split; [done|]).
        -- by apply Forall_cons.
        -- by apply Forall_cons_1 in Hall as [_ Hall].
      * split; [done | by intros [? _]].
    + rewrite IH. split.
      * intros [Hcur _]. by destruct cur.
      * intros [_ Hall]. apply Forall_cons_1 in Hall as [Hspace _]. congruence.
Qed.

Lemma split_blank line : split line = [] ↔ blank_line line.
Proof. unfold split, blank_line. rewrite split_go_nil. naive_solver. Qed.

Lemma split_tokens line : Forall token_ok (split line).
Proof. apply split_go_tokens. constructor. Qed.

Lemma load_table_from_app h1 h2 table :
  load_table_from (h1 ++ h2) table
  = match load_table_from h1 table with
    | inl e => inl e
    | inr table' => load_table_from h2 table'
    end.
Proof.
  revert table. induction h1 as [|line h1 IH]; intros table; simpl; [done|].
  destruct (split line); [done | apply IH].
Qed.

(** Lines that do not start with [k] leave the entry of [k] as it was. *)
Lemma load_table_from_other handle k :
  Forall (λ line, head (split line) ≠ Some k) handle →
  ∀ table NN, load_table_from handle table = inr NN → NN !! k = table !! k.
Proof.
  induction 1 as [|line handle Hline _ IH]; intros table NN; simpl.
  - by intros [= <-].
  - destruct (split line) as [|k' entries]; [done|].
    intros Hload. rewrite (IH _ _ Hload).
    apply lookup_insert_ne. intros ->. by apply Hline.
Qed.

(** Every entry of the table comes from the table it started from or from a
    line. *)
Lemma load_table_from_source handle :
  ∀ table NN k entries,
    load_table_from handle table = inr NN →
    NN !! k = Some entries →
    table !! k = Some entries ∨ ∃ line, line ∈ handle ∧ split line = k :: entries.
Proof.
  induction handle as [|line handle IH]; intros table NN k entries; simpl.
  - intros [= <-]. by left.
  - destruct (split line) as [|k' entries'] eqn:Hline; [done|].
    intros Hload Hk.
    destruct (IH _ _ _ _ Hload Hk) as [Hin|(line' & Hin & Hsplit)].
    + destruct (decide (k' = k)) as [->|Hne].
      * rewrite lookup_insert_eq in Hin. injection Hin as ->.
        right. exists line. split; [by left | done].
      * rewrite lookup_insert_ne in Hin by done. by left.
    + right. exists line'. split; [by right | done].
Qed.

Lemma load_table_from_outcome handle :
  ∀ table,
    (Exists blank_line handle → load_table_from handle table = inl IndexError)
    ∧ (Forall (λ line, ¬ blank_line line) handle →
       ∃ NN, load_table_from handle table = inr NN).
Proof.
  induction handle as [|line handle IH]; intros table; simpl.
  - split; [by intros ?%Exists_nil | by eauto].
  - destruct (split line) as [|k entries] eqn:Hline.
    + apply split_blank in Hline. split; [done|].
      by intros [? _]%Forall_cons_1.
    + assert (Hfull : ¬ blank_line line).
      { intros Hblank%split_blank. congruence. }
      destruct (IH (<[k := entries]> table)) as [Hfail Hok]. split.
      * intros [?|?]%Exists_cons; [done | by apply Hfail].
      * intros [_ ?]%Forall_cons_1. by apply Hok.
Qed.

End LoaderFacts.

(** X20. Loading a table fails, with the [IndexError] of [line[0]], exactly
    when the file has a line of whitespace only (an empty line included); a
    file without such a line always gives a table. *)
Theorem load_table_blank_line (handle : list string) :
  (Exists blank_line handle → load_table handle = inl IndexError)
  ∧ (Forall (λ line, ¬ blank_line line) handle →
     ∃ NN, load_table handle = inr NN).
Proof. apply load_table_from_outcome. Qed.

Lemma load_table_blank_line_witness :
  load_table ["q w a"; "  "; "w q e"] = inl IndexError.
Proof.
  apply (load_table_blank_line ["q w a"; "  "; "w q e"]).
  apply Exists_cons_tl, Exists_cons_hd. repeat constructor.
Defined.

(** X21. Every entry of a loaded table is read off a line of the file: the
    key is the first token of that line and the list is the rest of its
    tokens; the key and every item of the list are non-empty and free of
    whitespace. *)
Theorem load_table_entries
    (handle : list string) (NN : gmap string (list string))
    (k : string) (entries : list string) :
  load_table handle = inr NN →
  NN !! k = Some entries →
  (∃ line, line ∈ handle ∧ split line = k :: entries)
  ∧ token_ok k
  ∧ Forall token_ok entries.
Proof.
  intros Hload Hk.
  destruct (load_table_from_source _ _ _ _ _ Hload Hk)
    as [Hempty|(line & Hin & Hsplit)]; [by rewrite lookup_empty in Hempty|].
  pose proof (split_tokens line) as Htokens. rewrite Hsplit in Htokens.
  apply Forall_cons_1 in Htokens as [Hkey Hentries]. eauto.
Qed.

Lemma load_table_entries_witness :
  (∃ line, line ∈ ["q w a"; "a q w s z"] ∧ split line = "a" :: ["q"; "w"; "s"; "z"])
  ∧ token_ok "a"
  ∧ Forall token_ok ["q"; "w"; "s"; "z"].
Proof.
  apply (load_table_entries ["q w a"; "a q w s z"]
           (<["a" := ["q"; "w"; "s"; "z"]]> (<["q" := ["w"; "a"]]> ∅))).
  - reflexivity.
  - apply lookup_insert_eq.
Defined.

(** X22. When several lines start with the same key, the last one decides:
    the table gives for a key the tokens that follow it on the last line that
    starts with it. *)
Theorem load_table_last_line_wins
    (before after : list string) (line : string)
    (NN : gmap string (list string)) (k : string) (entries : list string) :
  load_table (before ++ line :: after) = inr NN →
  split line = k :: entries →
  Forall (λ line', head (split line') ≠ Some k) after →
  NN !! k = Some entries.
Proof.
  unfold load_table. rewrite load_table_from_app.
  destruct (load_table_from before ∅) as [e|table]; [done|].
  simpl. intros Hload Hline Hafter. rewrite Hline in Hload.
  rewrite (load_table_from_other _ _ Hafter _ _ Hload).
  apply lookup_insert_eq.
Qed.

Lemma load_table_last_line_wins_witness :
  (<["a" := ["s"]]> (<["q" := ["w"]]> (<["a" := ["q"]]> ∅)) : gmap string (list string))
    !! "a" = Some ["s"].
Proof.
  apply (load_table_last_line_wins ["a q"; "q w"] [] "a s").
  - reflexivity.
  - reflexivity.
  - constructor.
Defined.

(** ** Termination of the facade, again *)

(** X23. For every method but intrude, [simple_perturb] comes to an end,
    with a text or with an exception, for every outcome of the draws: one
    round of the selection loop per token of the text is enough. *)
Theorem simple_perturb_terminates
    (word_tokenize : string → list string) (detokenize : list string → string)
    (NN typos : gmap string (list string)) (fuel : nat) (text : string)
    (method : method_arg) (level : Q) (g : rng) :
  method ≠ MethodStr "intrude" → method ≠ MethodEnum INTRUDE →
  length (word_tokenize text) ≤ fuel →
  simple_perturb word_tokenize detokenize NN typos fuel text method level g
  ≠ Diverge.
Proof. intros Hstr Henum Hfuel. by apply comes_back_simple_perturb. Qed.

Lemma simple_perturb_terminates_witness :
  simple_perturb split_tokenize space_detokenize keyboard_sample typos_sample 3
    "I like apples" (MethodStr "inner-swap") (1 # 2) tape0
  ≠ Diverge.
Proof.
  apply (simple_perturb_terminates split_tokenize space_detokenize
           keyboard_sample typos_sample 3 "I like apples"
           (MethodStr "inner-swap") (1 # 2) tape0).
  - discriminate.
  - discriminate.
  - vm_compute. lia.
Defined.
